(** * Verification of the manga panel tool

    A shallow embedding of the TypeScript sources
    [services/geminiService.ts], [App.tsx] and
    [components/DrawingCanvas.tsx], followed by the properties of the
    natural-language specification, each stated over the embedded code.

    Conventions.  JavaScript strings are [string]; [null]/[undefined] is
    [None]; React state is an explicit record threaded through every
    handler; the console and the remote service live in a [World] that is
    passed along with the state.  An [async] function is modelled by its
    synchronous prefix and the continuation that runs at settlement.
    The pointer handlers of the drawing surface are given twice: inside
    the state machine of the surface, on exact rationals, and in
    [Binary64] on IEEE-754 binary64 numbers, with the rounding of every
    operation. *)

From Stdlib Require Import String Ascii List Arith Lia Bool.
From Stdlib Require Import DecimalNat DecimalString QArith Qcanon.
From Stdlib Require PrimFloat FloatOps SpecFloat.
From stdpp Require Import base option list.
Import ListNotations.
Local Open Scope string_scope.
Local Open Scope list_scope.
Local Open Scope nat_scope.

(** ** JavaScript helpers *)

Module JS.

(** Truthiness of a string value: only the empty string is falsy. *)
Definition truthy (s : string) : bool :=
  match s with
  | EmptyString => false
  | String _ _ => true
  end.

(** [s.startsWith(p)] *)
Definition startsWith (p s : string) : bool := String.prefix p s.

(** Remainder of [s] after the prefix [p], when [s] starts with [p]. *)
Fixpoint strip_prefix (p s : string) : option string :=
  match p, s with
  | EmptyString, _ => Some s
  | String a p', String b s' =>
      if Ascii.eqb a b then strip_prefix p' s' else None
  | String _ _, EmptyString => None
  end.

(** Template interpolation of a non-negative integer. *)
Definition string_of_nat (n : nat) : string :=
  NilEmpty.string_of_uint (Nat.to_uint n).

(** The console: each entry keeps the level, the fixed message and the
    extra argument that was logged with it. *)
Inductive LogEntry :=
| ConsoleWarn (msg detail : string)
| ConsoleError (msg detail : string).

End JS.

(** ** services/geminiService.ts *)

Module GeminiService.
Import JS.

(** *** Request and response shapes of the remote capability *)

Record InlineData := { mimeType : string; data : string }.

Inductive Part :=
| TextPart (text : string)
| InlinePart (inlineData : InlineData).

Record Request := {
  model : string;
  parts : list Part;
  aspectRatio : string
}.

(** A part of a response; both fields are optional in the SDK. *)
Record ResponseInline := { r_mimeType : option string; r_data : option string }.
Record ResponsePart := { r_text : option string; r_inlineData : option ResponseInline }.

(** [c_parts = None] stands for a candidate whose [content] (or its
    [parts]) is missing: reading it throws a TypeError. *)
Record Candidate := { c_parts : option (list ResponsePart) }.
Record Response := { candidates : option (list Candidate) }.

(** How one remote call ends. *)
Inductive Settled :=
| Fulfilled (response : Response)
| Rejected (reason : string).

(** The remote service: the answer to the [n]-th call ever issued
    (counting from 0), which may depend on the request. *)
Definition Remote := nat -> Request -> Settled.

Record World := {
  calls : list Request;          (* requests issued so far, oldest first *)
  console : list LogEntry        (* console output, oldest first *)
}.

Definition emptyWorld : World := {| calls := []; console := [] |}.

Definition issue (req : Request) (w : World) : World :=
  {| calls := calls w ++ [req]; console := console w |}.

Definition log (e : LogEntry) (w : World) : World :=
  {| calls := calls w; console := console w ++ [e] |}.

(** *** Payload construction *)

(** The regular expression
    [/^data:image\/(png|jpeg|jpg|webp);base64,/]: the alternatives are
    tried in order at the start of the string. *)
Definition dataUrlPrefixes : list string :=
  [ "data:image/png;base64,";
    "data:image/jpeg;base64,";
    "data:image/jpg;base64,";
    "data:image/webp;base64," ].

Fixpoint replace_first_prefix (ps : list string) (s : string) : string :=
  match ps with
  | [] => s
  | p :: ps' =>
      match strip_prefix p s with
      | Some rest => rest
      | None => replace_first_prefix ps' s
      end
  end.

(** [s.replace(re, empty)] for the regular expression above. *)
Definition cleanBase64 (s : string) : string :=
  replace_first_prefix dataUrlPrefixes s.

Definition characterParts (characterImageBase64s : list string) : list Part :=
  map (fun img =>
         InlinePart {| mimeType := "image/png"; data := cleanBase64 img |})
      characterImageBase64s.

Definition promptText (characterImageBase64s : list string)
                      (additionalPrompt : string) : string :=
  "
      You are a professional manga artist assistant.
      
      INPUTS:
      1. Character Sheets (First "
  ++ string_of_nat (length characterImageBase64s)
  ++ " images): These define the character's identity (hair, face, costume, accessories). Combine these details to understand the character perfectly.
      2. Pose & Composition Reference (Last image): This defines the exact body pose, camera angle, and perspective.

      TASK:
      Create a high-quality manga/anime style illustration of the character defined in the Character Sheets, acting out the scene in the Pose Reference.

      RULES:
      - RESOLUTION: Generate in 1920x1080 (16:9) landscape format.
      - STRICT CHARACTER CONSISTENCY: The face, hair, and outfit must look exactly like the provided Character Sheets.
      - EXACT POSE: The character's limb positioning and viewing angle must match the Pose Reference exactly.
      - STYLE: Use a clean, professional manga art style (monochrome or color based on input style). 
      "
  ++ (if truthy additionalPrompt
      then "Additional Instructions: " ++ additionalPrompt
      else EmptyString)
  ++ "
    ".

(** The single request document shared by all variations. *)
Definition buildRequest (characterImageBase64s : list string)
                        (poseImageBase64 additionalPrompt : string) : Request :=
  let cleanPose := cleanBase64 poseImageBase64 in
  {| model := "gemini-2.5-flash-image";
     parts :=
       TextPart (promptText characterImageBase64s additionalPrompt)
       :: characterParts characterImageBase64s
       ++ [InlinePart {| mimeType := "image/png"; data := cleanPose |}];
     aspectRatio := "16:9" |}.


(** *** One remote call: [generateSingleImage] *)

(** The [for ... of] loop over the parts of the first candidate: the first
    part whose [inlineData.data] is truthy gives the image. *)
Fixpoint firstInlineImage (ps : list ResponsePart) : option string :=
  match ps with
  | [] => None
  | part :: rest =>
      match r_inlineData part with
      | Some inlineData =>
          match r_data inlineData with
          | Some d =>
              if truthy d then Some ("data:image/png;base64," ++ d)%string
              else firstInlineImage rest
          | None => firstInlineImage rest
          end
      | None => firstInlineImage rest
      end
  end.

Definition warnSingle (detail : string) : LogEntry :=
  ConsoleWarn "Single generation failed, retrying or skipping" detail.

(** The continuation of [generateSingleImage] after its [await]: the value
    the call's promise resolves to ([None] is [null]) and the console
    output of the [catch] block. *)
Definition singleResult (s : Settled) (w : World) : option string * World :=
  match s with
  | Rejected reason => (None, log (warnSingle reason) w)
  | Fulfilled response =>
      match candidates response with
      | Some (c :: _) =>
          match c_parts c with
          | Some ps => (firstInlineImage ps, w)
          | None => (None, log (warnSingle "TypeError") w)
          end
      | _ => (None, w)
      end
  end.

(** *** Fan-out and join *)

(** A promise returned by [generateSingleImage]: pending on the remote
    call with the given ordinal, or resolved.  It never rejects, because
    the whole body sits in [try]/[catch]. *)
Inductive Promise :=
| Pending (callNo : nat)
| Resolved (value : option string).

(** [Array(n).fill(null).map(() => generateSingleImage())]: every call is
    issued, in index order, before anything is awaited. *)
Fixpoint dispatch (n : nat) (req : Request) (w : World) : list Promise * World :=
  match n with
  | O => ([], w)
  | S n' =>
      let p := Pending (length (calls w)) in
      let '(ps, w') := dispatch n' req (issue req w) in
      (p :: ps, w')
  end.

(** Settlement of the promise at index [i] of the array. *)
Definition settle (remote : Remote) (req : Request) (i : nat)
           (ps : list Promise) (w : World) : list Promise * World :=
  match ps !! i with
  | Some (Pending c) =>
      let '(v, w') := singleResult (remote c req) w in
      (<[i := Resolved v]> ps, w')
  | _ => (ps, w)
  end.

(** The calls settle one after the other in the order given by
    [schedule] (a list of array indices). *)
Fixpoint run_schedule (remote : Remote) (req : Request) (schedule : list nat)
         (ps : list Promise) (w : World) : list Promise * World :=
  match schedule with
  | [] => (ps, w)
  | i :: schedule' =>
      let '(ps', w') := settle remote req i ps w in
      run_schedule remote req schedule' ps' w'
  end.

(** [Promise.all]: resolves, once every input has resolved, with the
    values in the order of the input array. *)
Fixpoint promiseAll (ps : list Promise) : option (list (option string)) :=
  match ps with
  | [] => Some []
  | Pending _ :: _ => None
  | Resolved v :: rest =>
      match promiseAll rest with
      | Some vs => Some (v :: vs)
      | None => None
      end
  end.

Inductive Outcome :=
| Returned (images : list string)
| Thrown (message : string).

Definition numberOfVariations : nat := 10.

Definition noImagesMessage : string := "Failed to generate any images.".

(** [generateMangaPanel].  The result is [None] while the [await] on
    [Promise.all] has not returned, i.e. some call never settles. *)
Definition generateMangaPanel (remote : Remote) (schedule : list nat)
           (characterImageBase64s : list string)
           (poseImageBase64 additionalPrompt : string)
           (w : World) : option Outcome * World :=
  let req := buildRequest characterImageBase64s poseImageBase64 additionalPrompt in
  let '(promises, w1) := dispatch numberOfVariations req w in
  let '(settled, w2) := run_schedule remote req schedule promises w1 in
  match promiseAll settled with
  | None => (None, w2)
  | Some results =>
      (* results.filter(img => img !== null) *)
      let validImages := omap (fun img => img) results in
      if length validImages =? 0
      then (Some (Thrown noImagesMessage),
            log (ConsoleError "Gemini API Error:" noImagesMessage) w2)
      else (Some (Returned validImages), w2)
  end.

End GeminiService.

(** ** App.tsx *)

Module App.
Import JS GeminiService.

(** A user-supplied file: its name, its declared content type and, when
    the browser can read it, the base64 encoding of its bytes. *)
Record File := {
  name : string;
  type : string;
  content : option string
}.

(** [readFile]: the promise resolves with the result of
    [FileReader.readAsDataURL], a URL of the form
    [data:<type>;base64,<payload>], and rejects ([None]) when the reader
    reports an error.  The media type in the URL is written by the reader
    of the platform: it is the declared type of the file when that is a
    well-formed content type, which is the case modelled here; what a
    reader writes for a malformed one is not fixed by the code. *)
Definition readFile (file : File) : option string :=
  match content file with
  | Some payload => Some ("data:" ++ type file ++ ";base64," ++ payload)%string
  | None => None
  end.

(** The component state (one field per [useState]). *)
Record State := {
  characterImages : list string;
  poseImage : option string;
  generatedImages : list string;
  isGenerating : bool;
  error : option string;
  customPrompt : string
}.

Definition initialState : State :=
  {| characterImages := []; poseImage := None; generatedImages := [];
     isGenerating := false; error := None; customPrompt := EmptyString |}.

Definition setCharacterImages (v : list string) (st : State) : State :=
  {| characterImages := v; poseImage := poseImage st;
     generatedImages := generatedImages st; isGenerating := isGenerating st;
     error := error st; customPrompt := customPrompt st |}.

Definition setPoseImage (v : option string) (st : State) : State :=
  {| characterImages := characterImages st; poseImage := v;
     generatedImages := generatedImages st; isGenerating := isGenerating st;
     error := error st; customPrompt := customPrompt st |}.

Definition setGeneratedImages (v : list string) (st : State) : State :=
  {| characterImages := characterImages st; poseImage := poseImage st;
     generatedImages := v; isGenerating := isGenerating st;
     error := error st; customPrompt := customPrompt st |}.

Definition setIsGenerating (v : bool) (st : State) : State :=
  {| characterImages := characterImages st; poseImage := poseImage st;
     generatedImages := generatedImages st; isGenerating := v;
     error := error st; customPrompt := customPrompt st |}.

Definition setError (v : option string) (st : State) : State :=
  {| characterImages := characterImages st; poseImage := poseImage st;
     generatedImages := generatedImages st; isGenerating := isGenerating st;
     error := v; customPrompt := customPrompt st |}.

Definition setCustomPrompt (v : string) (st : State) : State :=
  {| characterImages := characterImages st; poseImage := poseImage st;
     generatedImages := generatedImages st; isGenerating := isGenerating st;
     error := error st; customPrompt := v |}.

(** *** Upload handlers *)

(** The [for] loop of [handleCharacterFiles]; [newImages] is the array
    being pushed to. *)
Fixpoint readLoop (files : list File) (newImages : list string) (w : World)
  : list string * World :=
  match files with
  | [] => (newImages, w)
  | file :: rest =>
      if startsWith "image/" (type file) then
        match readFile file with
        | Some dataUrl => readLoop rest (newImages ++ [dataUrl]) w
        | None =>
            readLoop rest newImages
                     (log (ConsoleError "Failed to read file" (name file)) w)
        end
      else readLoop rest newImages w
  end.

Definition handleCharacterFiles (files : option (list File))
           (st : State) (w : World) : State * World :=
  match files with
  | None => (st, w)
  | Some fs =>
      let st1 := setError None st in
      let '(newImages, w') := readLoop fs [] w in
      if 0 <? length newImages
      then (setCharacterImages (characterImages st1 ++ newImages) st1, w')
      else (st1, w')
  end.

(** [handlePoseFile].  When [readFile] rejects, the [await] throws before
    either setter runs, so the state is left as it was. *)
Definition handlePoseFile (file : option File)
           (st : State) (w : World) : State * World :=
  match file with
  | Some f =>
      if startsWith "image/" (type f) then
        match readFile f with
        | Some dataUrl => (setError None (setPoseImage (Some dataUrl) st), w)
        | None => (st, w)
        end
      else (setError (Some "Please upload a valid image file.") st, w)
  | None => (st, w)
  end.

(** [prev.filter((_, i) => i !== index)] *)
Fixpoint filterIndexNe (index i : nat) (l : list string) : list string :=
  match l with
  | [] => []
  | x :: rest =>
      if i =? index then filterIndexNe index (S i) rest
      else x :: filterIndexNe index (S i) rest
  end.

Definition removeCharacterImage (index : nat) (st : State) : State :=
  setCharacterImages (filterIndexNe index 0 (characterImages st)) st.

(** *** Generation *)

(** The three setters that run between the precondition checks and the
    call of the orchestrator. *)
Definition beginGenerate (st : State) : State :=
  setGeneratedImages [] (setError None (setIsGenerating true st)).

(** The [try]/[catch]/[finally] around the awaited call; [None] means
    that the call has not settled. *)
Definition finishGenerate (st : State) (outcome : option Outcome) : State :=
  match outcome with
  | Some (Returned results) =>
      setIsGenerating false (setGeneratedImages results st)
  | Some (Thrown message) =>
      setIsGenerating false
        (setError (Some (if truthy message then message
                         else "Something went wrong during generation.")) st)
  | None => st
  end.

Definition handleGenerate (remote : Remote) (schedule : list nat)
           (st : State) (w : World) : State * World :=
  if length (characterImages st) =? 0 then
    (setError (Some "Please upload at least one character sheet.") st, w)
  else
    match poseImage st with
    | Some pose =>
        if truthy pose then
          let st1 := beginGenerate st in
          let '(outcome, w') :=
            generateMangaPanel remote schedule
                               (characterImages st) pose (customPrompt st) w in
          (finishGenerate st1 outcome, w')
        else
          (setError (Some "Please upload a pose/composition reference.") st, w)
    | None =>
        (setError (Some "Please upload a pose/composition reference.") st, w)
    end.

(** *** The user's actions *)

Inductive Action :=
| CharacterFiles (files : option (list File))
| PoseFile (file : option File)
| RemoveCharacter (index : nat)
| ClearCharacters
| ClearPose
| EditPrompt (text : string)
| Generate (remote : Remote) (schedule : list nat).

Definition step (a : Action) (sw : State * World) : State * World :=
  let '(st, w) := sw in
  match a with
  | CharacterFiles files => handleCharacterFiles files st w
  | PoseFile file => handlePoseFile file st w
  | RemoveCharacter index => (removeCharacterImage index st, w)
  | ClearCharacters => (setCharacterImages [] st, w)
  | ClearPose => (setPoseImage None st, w)
  | EditPrompt text => (setCustomPrompt text st, w)
  | Generate remote schedule => handleGenerate remote schedule st w
  end.

(** The session after the given actions, oldest first. *)
Definition run (actions : list Action) : State * World :=
  fold_left (fun sw a => step a sw) actions (initialState, emptyWorld).

End App.

(** ** components/DrawingCanvas.tsx *)

Module DrawingCanvas.

(** The state machine of the surface carries its coordinates and sizes
    as exact rationals.  This is the exact-arithmetic view of the
    component: the rounding of IEEE-754 doubles and division by zero are
    outside it, and the arithmetic of the pointer handlers on binary64
    numbers is modelled separately in [Binary64] below. *)
Definition number : Type := Qc.
Definition num (z : Z) : number := Q2Qc (inject_Z z).

(** Conversion of a number to the IDL type [unsigned long]: truncation
    towards zero, then reduction modulo 2^32. *)
Definition truncate (x : number) : Z :=
  Z.quot (Qnum (this x)) (Zpos (Qden (this x))).

Definition toUnsignedLong (x : number) : Z := (truncate x mod 2 ^ 32)%Z.

(** Assignment to [canvas.width] or [canvas.height]: the attribute takes
    the converted value when it is at most 2147483647 and its default
    otherwise. *)
Definition reflectSize (default : Z) (x : number) : Z :=
  let n := toUnsignedLong x in
  if (n >? 2147483647)%Z then default else n.

Module Rect.
(** The [DOMRect] returned by [getBoundingClientRect]: where, and how
    large, the canvas is displayed. *)
Record t := { left : number; top : number; width : number; height : number }.
End Rect.

(** What has been sent to the 2D context since the bitmap was last reset. *)
Inductive DrawOp :=
| FillRect (x y w h : number)
| BeginPath
| MoveTo (x y : number)
| LineTo (x y : number)
| Stroke
| ClosePath.

Record Context2D := {
  lineCap : string;
  lineJoin : string;
  strokeStyle : string;
  lineWidth : number;
  fillStyle : string;
  ops : list DrawOp
}.

(** The [<canvas>] element: the size of its buffer (two [unsigned long]
    attributes), its current layout and whether [getContext('2d')] yields
    a context. *)
Record Canvas := {
  canvas_width : Z;
  canvas_height : Z;
  boundingClientRect : Rect.t;
  supports2d : bool
}.

(** Props, refs and state of one mounted component. *)
Record State := {
  width : number;
  height : number;
  canvasRef : option Canvas;
  ctxRef : option Context2D;
  isDrawing : bool;
  hasContent : bool
}.

Definition setCtx (ctx : Context2D) (st : State) : State :=
  {| width := width st; height := height st; canvasRef := canvasRef st;
     ctxRef := Some ctx; isDrawing := isDrawing st; hasContent := hasContent st |}.

Definition setCanvas (canvas : Canvas) (st : State) : State :=
  {| width := width st; height := height st; canvasRef := Some canvas;
     ctxRef := ctxRef st; isDrawing := isDrawing st; hasContent := hasContent st |}.

Definition setIsDrawing (v : bool) (st : State) : State :=
  {| width := width st; height := height st; canvasRef := canvasRef st;
     ctxRef := ctxRef st; isDrawing := v; hasContent := hasContent st |}.

Definition setHasContent (v : bool) (st : State) : State :=
  {| width := width st; height := height st; canvasRef := canvasRef st;
     ctxRef := ctxRef st; isDrawing := isDrawing st; hasContent := v |}.

Definition setProps (w h : number) (st : State) : State :=
  {| width := w; height := h; canvasRef := canvasRef st;
     ctxRef := ctxRef st; isDrawing := isDrawing st; hasContent := hasContent st |}.

Definition emit (new : list DrawOp) (ctx : Context2D) : Context2D :=
  {| lineCap := lineCap ctx; lineJoin := lineJoin ctx;
     strokeStyle := strokeStyle ctx; lineWidth := lineWidth ctx;
     fillStyle := fillStyle ctx; ops := ops ctx ++ new |}.

Definition setFillStyle (v : string) (ctx : Context2D) : Context2D :=
  {| lineCap := lineCap ctx; lineJoin := lineJoin ctx;
     strokeStyle := strokeStyle ctx; lineWidth := lineWidth ctx;
     fillStyle := v; ops := ops ctx |}.

(** The body of the [useEffect] with dependencies [[width, height]].
    Assigning [canvas.width] resets the bitmap and the context state (the
    defaults of the two attributes are 300 and 150); the effect then sets
    the stroke style and paints the background with the props as the size
    of the rectangle.  It does not touch [isDrawing] or [hasContent]. *)
Definition initialize (st : State) : State :=
  match canvasRef st with
  | Some canvas =>
      let canvas' :=
        {| canvas_width := reflectSize 300 (width st);
           canvas_height := reflectSize 150 (height st);
           boundingClientRect := boundingClientRect canvas;
           supports2d := supports2d canvas |} in
      if supports2d canvas then
        setCtx {| lineCap := "round"; lineJoin := "round";
                  strokeStyle := "white"; lineWidth := num 8;
                  fillStyle := "#000000";
                  ops := [FillRect (num 0) (num 0) (width st) (height st)] |}
               (setCanvas canvas' st)
      else setCanvas canvas' st
  | None => st
  end.

(** First render and first run of the effect; the defaults of the props
    are 512 by 512. *)
Definition mount (w h : number) (canvas : Canvas) : State :=
  initialize {| width := w; height := h; canvasRef := Some canvas;
                ctxRef := None; isDrawing := false; hasContent := false |}.

(** A render with new props: the effect runs again when a dependency
    changed. *)
Definition rerender (w h : number) (st : State) : State :=
  if Qc_eq_dec w (width st) then
    if Qc_eq_dec h (height st) then st
    else initialize (setProps w h st)
  else initialize (setProps w h st).

(** *** The imperative handle *)

Definition clearCanvas (st : State) : State :=
  match canvasRef st, ctxRef st with
  | Some _, Some ctx =>
      setHasContent false
        (setCtx (emit [FillRect (num 0) (num 0) (width st) (height st)]
                      (setFillStyle "#000000" ctx)) st)
  | _, _ => st
  end.

Definition isEmpty (st : State) : bool := negb (hasContent st).

(** *** Drawing handlers *)

Definition startDrawing (x y : number) (st : State) : State :=
  match ctxRef st with
  | None => st
  | Some ctx =>
      setHasContent true
        (setIsDrawing true (setCtx (emit [BeginPath; MoveTo x y] ctx) st))
  end.

Definition draw (x y : number) (st : State) : State :=
  if negb (isDrawing st) then st
  else match ctxRef st with
       | None => st
       | Some ctx => setCtx (emit [LineTo x y; Stroke] ctx) st
       end.

Definition stopDrawing (st : State) : State :=
  match ctxRef st with
  | None => st
  | Some ctx => setIsDrawing false (setCtx (emit [ClosePath] ctx) st)
  end.

(** *** Mouse and touch events *)

Record MouseEvent := { offsetX : number; offsetY : number }.
Record Touch := { clientX : number; clientY : number }.
Record TouchEvent := { touches : list Touch }.

Local Open Scope Qc_scope.

Definition handleMouseDown (e : MouseEvent) (st : State) : State :=
  match canvasRef st with
  | Some canvas =>
      let rect := boundingClientRect canvas in
      let scaleX := width st / Rect.width rect in
      let scaleY := height st / Rect.height rect in
      startDrawing (offsetX e * scaleX) (offsetY e * scaleY) st
  | None => st
  end.

Definition handleMouseMove (e : MouseEvent) (st : State) : State :=
  match canvasRef st with
  | Some canvas =>
      let rect := boundingClientRect canvas in
      let scaleX := width st / Rect.width rect in
      let scaleY := height st / Rect.height rect in
      draw (offsetX e * scaleX) (offsetY e * scaleY) st
  | None => st
  end.

(** [e.touches[0]] is [undefined] for an empty touch list; reading its
    coordinates then throws and the handler changes nothing. *)
Definition handleTouchStart (e : TouchEvent) (st : State) : State :=
  match canvasRef st with
  | Some canvas =>
      let rect := boundingClientRect canvas in
      match touches e with
      | touch :: _ =>
          let x := (clientX touch - Rect.left rect) * (width st / Rect.width rect) in
          let y := (clientY touch - Rect.top rect) * (height st / Rect.height rect) in
          startDrawing x y st
      | [] => st
      end
  | None => st
  end.

Definition handleTouchMove (e : TouchEvent) (st : State) : State :=
  match canvasRef st with
  | Some canvas =>
      let rect := boundingClientRect canvas in
      match touches e with
      | touch :: _ =>
          let x := (clientX touch - Rect.left rect) * (width st / Rect.width rect) in
          let y := (clientY touch - Rect.top rect) * (height st / Rect.height rect) in
          draw x y st
      | [] => st
      end
  | None => st
  end.

(** *** The surface as a state machine *)

Inductive Op :=
| Initialize (w h : number)
| BeginStroke (x y : number)
| ExtendStroke (x y : number)
| EndStroke
| Clear.

Definition apply_op (o : Op) (st : State) : State :=
  match o with
  | Initialize w h => rerender w h st
  | BeginStroke x y => startDrawing x y st
  | ExtendStroke x y => draw x y st
  | EndStroke => stopDrawing st
  | Clear => clearCanvas st
  end.

Definition apply_ops (os : list Op) (st : State) : State :=
  fold_left (fun s o => apply_op o s) os st.

End DrawingCanvas.

(** ** components/DrawingCanvas.tsx: the pointer handlers on binary64 *)

Module Binary64.
Import PrimFloat.
Local Open Scope float_scope.

(** The four handlers with JavaScript's own numbers, IEEE-754 binary64:
    every product, quotient and difference is rounded, and a zero divisor
    gives an infinity or a NaN.  A handler is given the props, the
    rectangle of the canvas ([None] when [canvasRef.current] is null) and
    the event; its result is the call it makes. *)
Record DOMRect := { left : float; top : float; width : float; height : float }.

Record MouseEvent := { offsetX : float; offsetY : float }.
Record Touch := { clientX : float; clientY : float }.
Record TouchEvent := { touches : list Touch }.

Inductive Call :=
| StartDrawing (x y : float)
| Draw (x y : float).

Definition handleMouseDown (width height : float) (rect : option DOMRect)
           (e : MouseEvent) : option Call :=
  match rect with
  | Some rect =>
      let scaleX := width / rect.(Binary64.width) in
      let scaleY := height / rect.(Binary64.height) in
      Some (StartDrawing (offsetX e * scaleX) (offsetY e * scaleY))
  | None => None
  end.

Definition handleMouseMove (width height : float) (rect : option DOMRect)
           (e : MouseEvent) : option Call :=
  match rect with
  | Some rect =>
      let scaleX := width / rect.(Binary64.width) in
      let scaleY := height / rect.(Binary64.height) in
      Some (Draw (offsetX e * scaleX) (offsetY e * scaleY))
  | None => None
  end.

(** [e.touches[0]] is [undefined] for an empty touch list; reading its
    coordinates then throws and no call is made. *)
Definition handleTouchStart (width height : float) (rect : option DOMRect)
           (e : TouchEvent) : option Call :=
  match rect with
  | Some rect =>
      match touches e with
      | touch :: _ =>
          let x := (clientX touch - left rect) * (width / rect.(Binary64.width)) in
          let y := (clientY touch - top rect) * (height / rect.(Binary64.height)) in
          Some (StartDrawing x y)
      | [] => None
      end
  | None => None
  end.

Definition handleTouchMove (width height : float) (rect : option DOMRect)
           (e : TouchEvent) : option Call :=
  match rect with
  | Some rect =>
      match touches e with
      | touch :: _ =>
          let x := (clientX touch - left rect) * (width / rect.(Binary64.width)) in
          let y := (clientY touch - top rect) * (height / rect.(Binary64.height)) in
          Some (Draw x y)
      | [] => None
      end
  | None => None
  end.

End Binary64.

(** ** Vocabulary of the specification *)

Module GeminiSpec.
Import JS GeminiService.

(** What one call contributes to the result, as a function of how the
    remote call ended. *)
Definition singleValue (s : Settled) : option string :=
  fst (singleResult s emptyWorld).

(** The value of the [i]-th call of a batch whose first call has ordinal
    [base]. *)
Definition valueOf (remote : Remote) (req : Request) (base i : nat)
  : option string :=
  singleValue (remote (base + i) req).

Definition succeeded (remote : Remote) (req : Request) (base i : nat) : bool :=
  match valueOf remote req base i with
  | Some _ => true
  | None => false
  end.

(** How many of the calls of the batch succeed with an image. *)
Definition successCount (remote : Remote) (req : Request) (base : nat) : nat :=
  length (List.filter (succeeded remote req base) (seq 0 numberOfVariations)).

(** Every call of the batch settles at some point. *)
Definition all_settle (schedule : list nat) : Prop :=
  forall i, i < numberOfVariations -> i ∈ schedule.

(** The successful images listed by array index (dispatch order) and by
    the order in which their calls settled. *)
Definition dispatchOrder (remote : Remote) (req : Request) (base : nat)
  : list string :=
  omap (valueOf remote req base) (seq 0 numberOfVariations).

Definition completionOrder (remote : Remote) (req : Request) (base : nat)
           (schedule : list nat) : list string :=
  omap (valueOf remote req base) schedule.

(** "The outcome lists the successful images in completion order." *)
Definition returns_in_completion_order (remote : Remote) (schedule : list nat)
           (characterImageBase64s : list string)
           (poseImageBase64 additionalPrompt : string) (w : World) : Prop :=
  fst (generateMangaPanel remote schedule characterImageBase64s
                          poseImageBase64 additionalPrompt w)
  = Some (Returned
            (completionOrder remote
               (buildRequest characterImageBase64s poseImageBase64 additionalPrompt)
               (length (calls w)) schedule)).

(** A stub service: the calls whose ordinal satisfies [ok] answer with one
    candidate holding the given inline image, the others are rejected. *)
Definition imageResponse (payload : string) : Response :=
  {| candidates :=
       Some [ {| c_parts :=
                   Some [ {| r_text := None;
                             r_inlineData :=
                               Some {| r_mimeType := Some "image/png";
                                       r_data := Some payload |} |} ] |} ] |}.

Definition stubRemote (ok : nat -> bool) (payload : nat -> string) : Remote :=
  fun n _ => if ok n then Fulfilled (imageResponse (payload n))
             else Rejected "503".

(** Sample inputs. *)
Definition sampleCharacters : list string := ["data:image/png;base64,AAAA"].
Definition samplePose : string := "data:image/jpeg;base64,BBBB".
Definition reverseSchedule : list nat := [9; 8; 7; 6; 5; 4; 3; 2; 1; 0].
Definition swappedSchedule : list nat := [1; 0; 2; 3; 4; 5; 6; 7; 8; 9].
Definition twoPayloads (n : nat) : string := if n =? 0 then "QQ==" else "Qg==".
Definition noPrompt : string := EmptyString.

(** State of the promise array in which every promise is either still
    pending on its own call or resolved with that call's value. *)
Definition coherent (remote : Remote) (req : Request) (base n : nat)
           (ps : list Promise) : Prop :=
  length ps = n /\
  forall i p, ps !! i = Some p ->
              p = Pending (base + i) \/ p = Resolved (valueOf remote req base i).

Definition resolvedAt (ps : list Promise) (i : nat) : Prop :=
  exists v, ps !! i = Some (Resolved v).

End GeminiSpec.

Module AppSpec.
Import JS GeminiService App.

Definition isImageFile (f : File) : bool := startsWith "image/" (type f).

(** The files of a list that are declared as images and decode, as data
    URLs, in the order given. *)
Definition acceptedFiles (files : list File) : list string :=
  omap readFile (List.filter isImageFile files).

Definition unreadable (f : File) : bool :=
  match readFile f with
  | Some _ => false
  | None => true
  end.

(** The diagnostics for the files declared as images that do not decode. *)
Definition diagnostics (files : list File) : list LogEntry :=
  map (fun f => ConsoleError "Failed to read file" (name f))
      (List.filter unreadable (List.filter isImageFile files)).

(** "A batch that yields no image surfaces an error to the user." *)
Definition surfaces_error_on_empty_batch (files : list File)
           (st : State) (w : World) : Prop :=
  acceptedFiles files = [] ->
  error (fst (handleCharacterFiles (Some files) st w)) <> None.

(** The inline image payloads of a request, in order. *)
Definition inlinePayloads (req : Request) : list string :=
  omap (fun p => match p with
                 | InlinePart i => Some (data i)
                 | TextPart _ => None
                 end) (parts req).

(** "The inline part made from an accepted file holds the bare base64
      payload of that file." *)
Definition sends_bare_payload (f : File) : Prop :=
  forall payload dataUrl,
    isImageFile f = true ->
    content f = Some payload ->
    readFile f = Some dataUrl ->
    cleanBase64 dataUrl = payload.

(** A pose reference that the generate action treats as present. *)
Definition posePresent (st : State) : Prop :=
  forall p, poseImage st = Some p -> truthy p = true.

(** Sample files. *)
Definition pngFile : File :=
  {| name := "hero.png"; type := "image/png"; content := Some "iVBORw0KGgo=" |}.
Definition gifFile : File :=
  {| name := "hero.gif"; type := "image/gif"; content := Some "R0lGODlh" |}.
Definition brokenFile : File :=
  {| name := "broken.png"; type := "image/png"; content := None |}.
Definition textFile : File :=
  {| name := "notes.txt"; type := "text/plain"; content := Some "aGVsbG8=" |}.

Definition allFail : Remote := GeminiSpec.stubRemote (fun _ => false) (fun _ => EmptyString).

(** A session with one character sheet and a pose reference, and the
    same session after a first, successful generation. *)
Definition uploaded : list Action :=
  [CharacterFiles (Some [pngFile]); PoseFile (Some pngFile)].

Definition generatedOnce : list Action :=
  uploaded ++ [Generate (GeminiSpec.stubRemote (fun _ => true) GeminiSpec.twoPayloads)
                        GeminiSpec.reverseSchedule].

End AppSpec.

Module CanvasSpec.
Import DrawingCanvas.

(** A canvas displayed at 256 by 128 pixels, 10 pixels from the left and
    20 from the top of the viewport. *)
Definition sampleCanvas : Canvas :=
  {| canvas_width := 300; canvas_height := 150;
     boundingClientRect :=
       {| Rect.left := num 10; Rect.top := num 20;
          Rect.width := num 256; Rect.height := num 128 |};
     supports2d := true |}.

(** One stroke, then new dimensions for the buffer. *)
Definition strokeThenResize : list Op :=
  [BeginStroke (num 10) (num 10); ExtendStroke (num 20) (num 20); EndStroke;
   Initialize (num 256) (num 256)].

(** The context is available, as it is once the effect has run on a
    canvas that supports 2D drawing. *)
Definition ready (st : State) : Prop :=
  canvasRef st <> None /\ ctxRef st <> None.

Definition isClear (o : Op) : bool :=
  match o with
  | Clear => true
  | _ => false
  end.

Definition isBeginStroke (o : Op) : bool :=
  match o with
  | BeginStroke _ _ => true
  | _ => false
  end.

End CanvasSpec.

Module Binary64Spec.
Import PrimFloat Binary64.
Local Open Scope float_scope.

(** The rational number that a finite binary64 value stands for. *)
Definition exact (f : float) : option Q :=
  match FloatOps.Prim2SF f with
  | SpecFloat.S754_zero _ => Some (0 # 1)
  | SpecFloat.S754_finite s m e =>
      let q := (inject_Z (Zpos m) * Qpower (2 # 1) e)%Q in
      Some (if s then Qopp q else q)
  | _ => None
  end.






(** The mouse event at the place of a touch, with the difference computed
    in binary64. *)
Definition mouseOfTouch (rect : DOMRect) (touch : Touch) : MouseEvent :=
  {| offsetX := clientX touch - left rect; offsetY := clientY touch - top rect |}.

End Binary64Spec.

(** ** App.tsx: what the view derives from the state, and downloads *)

Module AppView.
Import JS GeminiService App.

(** [disabled] of the generate button:
    [isGenerating || characterImages.length === 0 || !poseImage]. *)
Definition generateDisabled (st : State) : bool :=
  isGenerating st
  || (length (characterImages st) =? 0)
  || negb (match poseImage st with
           | Some pose => truthy pose
           | None => false
           end).

(** The two placeholders of the result column. *)
Definition showSpinner (st : State) : bool :=
  isGenerating st && (length (generatedImages st) =? 0).

Definition showPlaceholder (st : State) : bool :=
  negb (isGenerating st) && (length (generatedImages st) =? 0).

(** The anchor element that [handleDownload] creates. *)
Record Anchor := { href : string; download : string }.

(** A node of the page; [nodeId] stands for the identity of the DOM
    object. *)
Record Node := { nodeId : nat; anchor : Anchor }.

(** The part of the page that [handleDownload] touches: the anchors among
    the children of [document.body], and the links clicked so far (each
    click of an anchor with a [download] attribute saves one file). *)
Record Document := {
  nextId : nat;
  body : list Node;
  clicked : list Anchor
}.

Definition createElement (a : Anchor) (doc : Document) : Node * Document :=
  ({| nodeId := nextId doc; anchor := a |},
   {| nextId := S (nextId doc); body := body doc; clicked := clicked doc |}).

Definition appendChild (n : Node) (doc : Document) : Document :=
  {| nextId := nextId doc; body := body doc ++ [n]; clicked := clicked doc |}.

Definition click (n : Node) (doc : Document) : Document :=
  {| nextId := nextId doc; body := body doc; clicked := clicked doc ++ [anchor n] |}.

Definition removeChild (n : Node) (doc : Document) : Document :=
  {| nextId := nextId doc;
     body := List.filter (fun m => negb (nodeId m =? nodeId n)) (body doc);
     clicked := clicked doc |}.

Definition handleDownload (dataUrl : string) (index : nat) (doc : Document)
  : Document :=
  let '(link, doc1) :=
    createElement
      {| href := dataUrl;
         download := ("manga-panel-" ++ string_of_nat (index + 1) ++ ".png")%string |}
      doc in
  removeChild link (click link (appendChild link doc1)).

(** [generatedImages.map((img, idx) => ...)]: the download button of every
    tile pressed once, first tile first. *)
Fixpoint downloadFrom (idx : nat) (images : list string) (doc : Document)
  : Document :=
  match images with
  | [] => doc
  | img :: rest => downloadFrom (S idx) rest (handleDownload img idx doc)
  end.

Definition downloadAll (st : State) (doc : Document) : Document :=
  downloadFrom 0 (generatedImages st) doc.

End AppView.

(** ** Further vocabulary *)

Module MoreSpec.
Import JS GeminiService GeminiSpec App AppSpec.

Definition pngPrefix : string := "data:image/png;base64,".

(** The payload of a response part that the loop accepts. *)
Definition usableData (part : ResponsePart) : option string :=
  match r_inlineData part with
  | Some inlineData =>
      match r_data inlineData with
      | Some d => if truthy d then Some d else None
      | None => None
      end
  | None => None
  end.

(** A data URL of a generated image: the png prefix and a non-empty
    payload. *)
Definition isGeneratedUrl (img : string) : Prop :=
  exists d, truthy d = true /\ img = (pngPrefix ++ d)%string.

(** A data URL, whatever media type the reader wrote into it. *)
Definition isDataUrl (s : string) : Prop := startsWith "data:" s = true.

(** The references held by the state are data URLs. *)
Definition inputsInv (st : State) : Prop :=
  Forall isDataUrl (characterImages st)
  /\ (forall p, poseImage st = Some p -> isDataUrl p).

(** The displayed outcome holds at most ten generated images. *)
Definition outputsInv (st : State) : Prop :=
  length (generatedImages st) <= 10
  /\ Forall isGeneratedUrl (generatedImages st).

(** The console output caused by the settlement of call [i]. *)
Definition warningsOf (remote : Remote) (req : Request) (base i : nat)
  : list LogEntry :=
  console (snd (singleResult (remote (base + i) req) emptyWorld)).

(** The declared type of every inline part is [image/png]. *)
Definition declaredPng (p : Part) : Prop :=
  match p with
  | InlinePart i => mimeType i = "image/png"
  | TextPart _ => True
  end.

(** The four content types whose data URLs the orchestrator strips. *)
Definition strippedTypes : list string :=
  ["image/png"; "image/jpeg"; "image/jpg"; "image/webp"].

(** The file name of the [n]-th tile, counting from 1. *)
Definition panelName (n : nat) : string :=
  ("manga-panel-" ++ string_of_nat n ++ ".png")%string.

(** A service that answers every call with the same image. *)
Definition allSucceed : Remote := stubRemote (fun _ => true) twoPayloads.

(** A schedule in which the call with index 3 never settles. *)
Definition stalledSchedule : list nat := [0; 1; 2; 4; 5; 6; 7; 8; 9].

(** Every child of the body was created before: its identity is below
    the next fresh one. *)
Definition knownNodes (doc : AppView.Document) : Prop :=
  Forall (fun m => AppView.nodeId m < AppView.nextId doc) (AppView.body doc).

Definition emptyDocument : AppView.Document :=
  {| AppView.nextId := 0; AppView.body := []; AppView.clicked := [] |}.

Definition jpegFile : File :=
  {| name := "side.jpeg"; type := "image/jpeg"; content := Some "/9j/4AAQ" |}.

End MoreSpec.

Module MoreCanvasSpec.
Import DrawingCanvas CanvasSpec.
Local Open Scope Qc_scope.

(** The stroke settings and background fill that the effect installs. *)
Definition styled (ctx : Context2D) : Prop :=
  lineCap ctx = "round" /\ lineJoin ctx = "round" /\
  strokeStyle ctx = "white" /\ lineWidth ctx = num 8 /\
  fillStyle ctx = "#000000".

(** A prop that is a whole number of pixels which the canvas can take as
    it is. *)
Definition wholeSize (x : number) (n : Z) : Prop :=
  (0 <= n <= 2147483647)%Z /\ x = num n.

(** The buffer of the canvas has the size that the assignment of the
    current props gives it, the context has the fixed settings, and the
    bitmap starts with the background rectangle of the size of the
    props. *)
Definition surfaceInv (st : State) : Prop :=
  match canvasRef st with
  | Some canvas =>
      canvas_width canvas = reflectSize 300 (width st)
      /\ canvas_height canvas = reflectSize 150 (height st)
  | None => True
  end /\
  match ctxRef st with
  | Some ctx =>
      styled ctx /\
      exists rest, ops ctx = FillRect (num 0) (num 0) (width st) (height st) :: rest
  | None => True
  end.

(** A context is only ever held for a canvas that supports 2D drawing. *)
Definition contextOwned (st : State) : Prop :=
  match ctxRef st with
  | Some _ => exists canvas, canvasRef st = Some canvas /\ supports2d canvas = true
  | None => True
  end.

(** One complete stroke through the given points, as operations of the
    surface and as commands of the context. *)
Definition strokeThrough (p0 : number * number) (ps : list (number * number))
  : list Op :=
  BeginStroke (fst p0) (snd p0)
  :: map (fun p => ExtendStroke (fst p) (snd p)) ps ++ [EndStroke].

Definition strokeCommands (p0 : number * number) (ps : list (number * number))
  : list DrawOp :=
  [BeginPath; MoveTo (fst p0) (snd p0)]
  ++ flat_map (fun p => [LineTo (fst p) (snd p); Stroke]) ps
  ++ [ClosePath].

(** The operations that follow the last [Clear] of a sequence. *)
Fixpoint sinceLastClear (os : list Op) : list Op :=
  match os with
  | [] => []
  | o :: rest =>
      if existsb isClear rest then sinceLastClear rest
      else if isClear o then rest
      else o :: rest
  end.

(** The mouse event at the place of a touch: its offset in the canvas is
    the client position of the touch minus the corner of the canvas. *)
Definition mouseOfTouch (rect : Rect.t) (touch : Touch) : MouseEvent :=
  {| offsetX := clientX touch - Rect.left rect;
     offsetY := clientY touch - Rect.top rect |}.

(** Props that are not whole, and a touch on the sample canvas. *)
Definition halfPixel : number := Q2Qc (201 # 2).

Definition sampleTouch : Touch := {| clientX := num 138; clientY := num 84 |}.

(** A canvas without 2D support. *)
Definition blindCanvas : Canvas :=
  {| canvas_width := 300; canvas_height := 150;
     boundingClientRect := boundingClientRect sampleCanvas;
     supports2d := false |}.


End MoreCanvasSpec.

(** ** Properties of the orchestrator *)

Module GeminiFacts.
Import JS GeminiService GeminiSpec.

(** The value of a call does not depend on the console. *)
Lemma singleResult_value s w : fst (singleResult s w) = singleValue s.
Proof.
  unfold singleValue.
  destruct s as [[[[|[[ps|] ] cs]|]]|reason]; reflexivity.
Qed.

(** Settlement only writes to the console. *)
Lemma singleResult_calls s w : calls (snd (singleResult s w)) = calls w.
Proof.
  destruct s as [[[[|[[ps|] ] cs]|]]|reason]; reflexivity.
Qed.

Lemma dispatch_spec n req w :
  dispatch n req w
  = (map Pending (seq (length (calls w)) n),
     {| calls := calls w ++ replicate n req; console := console w |}).
Proof.
  revert w. induction n as [|n IH]; intros w; simpl.
  - rewrite app_nil_r. by destruct w.
  - rewrite IH. simpl. rewrite length_app. simpl.
    replace (length (calls w) + 1) with (S (length (calls w))) by lia.
    by rewrite <- app_assoc.
Qed.

Lemma settle_calls remote req i ps w :
  calls (snd (settle remote req i ps w)) = calls w.
Proof.
  unfold settle. destruct (ps !! i) as [[c|v]|]; try reflexivity.
  pose proof (singleResult_calls (remote c req) w) as H.
  by destruct (singleResult (remote c req) w).
Qed.

Lemma run_schedule_calls remote req schedule ps w :
  calls (snd (run_schedule remote req schedule ps w)) = calls w.
Proof.
  revert ps w. induction schedule as [|i schedule IH]; intros ps w; simpl.
  - reflexivity.
  - pose proof (settle_calls remote req i ps w) as H.
    destruct (settle remote req i ps w) as [ps' w']. simpl in H.
    by rewrite IH.
Qed.

(** *** The promise array stays coherent while calls settle *)

Section Settlement.
Variable remote : Remote.
Variable req : Request.
Variables base n : nat.

Lemma coherent_dispatch w :
  base = length (calls w) ->
  coherent remote req base n (fst (dispatch n req w)).
Proof.
  intros ->. rewrite dispatch_spec. simpl. split.
  - by rewrite length_map, length_seq.
  - intros i p Hp. left.
    rewrite list_lookup_fmap in Hp.
    destruct (seq (length (calls w)) n !! i) as [c|] eqn:Hc; [|done].
    apply lookup_seq in Hc as [-> _]. simpl in Hp. congruence.
Qed.

Lemma settle_coherent i ps w :
  coherent remote req base n ps ->
  coherent remote req base n (fst (settle remote req i ps w)).
Proof.
  intros [Hlen Hps]. unfold settle.
  destruct (ps !! i) as [[c|v]|] eqn:Hi; simpl; [|by split..].
  pose proof (singleResult_value (remote c req) w) as Hv.
  destruct (singleResult (remote c req) w) as [v w']. simpl in *. split.
  - by rewrite length_insert.
  - intros j p Hj. destruct (decide (i = j)) as [<-|Hne].
    + rewrite list_lookup_insert_eq in Hj by (by eapply lookup_lt_Some).
      right. destruct (Hps i _ Hi) as [Heq|Heq]; [|done].
      injection Heq as ->. unfold valueOf. congruence.
    + rewrite list_lookup_insert_ne in Hj by done. by apply Hps.
Qed.

Lemma settle_keeps i ps w j :
  resolvedAt ps j -> resolvedAt (fst (settle remote req i ps w)) j.
Proof.
  intros [v Hv]. unfold settle.
  destruct (ps !! i) as [[c|v']|] eqn:Hi; simpl; [|by exists v..].
  destruct (singleResult (remote c req) w) as [v' w']. simpl.
  destruct (decide (i = j)) as [<-|Hne]; [congruence|].
  exists v. by rewrite list_lookup_insert_ne.
Qed.

Lemma settle_resolves i ps w :
  coherent remote req base n ps -> i < n ->
  resolvedAt (fst (settle remote req i ps w)) i.
Proof.
  intros [Hlen Hps] Hi. unfold settle.
  destruct (lookup_lt_is_Some_2 ps i) as [p Hp]; [lia|].
  rewrite Hp. destruct p as [c|v]; simpl; [|by exists v].
  destruct (singleResult (remote c req) w) as [v w']. simpl.
  exists v. apply list_lookup_insert_eq. lia.
Qed.

Lemma run_schedule_coherent schedule ps w :
  coherent remote req base n ps ->
  coherent remote req base n (fst (run_schedule remote req schedule ps w)).
Proof.
  revert ps w. induction schedule as [|i schedule IH]; intros ps w Hc; simpl.
  - done.
  - pose proof (settle_coherent i ps w Hc) as Hc'.
    destruct (settle remote req i ps w) as [ps' w']. by apply IH.
Qed.

Lemma run_schedule_keeps schedule ps w j :
  resolvedAt ps j ->
  resolvedAt (fst (run_schedule remote req schedule ps w)) j.
Proof.
  revert ps w. induction schedule as [|i schedule IH]; intros ps w Hr; simpl.
  - done.
  - pose proof (settle_keeps i ps w j Hr) as Hr'.
    destruct (settle remote req i ps w) as [ps' w']. by apply IH.
Qed.

Lemma run_schedule_resolves schedule ps w j :
  coherent remote req base n ps -> j ∈ schedule -> j < n ->
  resolvedAt (fst (run_schedule remote req schedule ps w)) j.
Proof.
  revert ps w. induction schedule as [|i schedule IH]; intros ps w Hc Hin Hj.
  - by apply elem_of_nil in Hin.
  - simpl.
    pose proof (settle_coherent i ps w Hc) as Hc'.
    pose proof (settle_resolves i ps w Hc) as Hres.
    destruct (settle remote req i ps w) as [ps' w']. simpl in *.
    apply elem_of_cons in Hin as [->|Hin].
    + apply run_schedule_keeps. by apply Hres.
    + by apply IH.
Qed.

(** Once every index has settled, the array holds the values of the
    calls in index order, whatever the order of settlement was. *)
Lemma coherent_all_resolved ps :
  coherent remote req base n ps ->
  (forall j, j < n -> resolvedAt ps j) ->
  ps = map (fun i => Resolved (valueOf remote req base i)) (seq 0 n).
Proof.
  intros [Hlen Hps] Hall. apply list_eq. intros i.
  rewrite list_lookup_fmap.
  destruct (decide (i < n)) as [Hi|Hi].
  - rewrite lookup_seq_lt by done. simpl.
    destruct (Hall i Hi) as [v Hv]. rewrite Hv.
    destruct (Hps i _ Hv) as [Heq|Heq]; congruence.
  - rewrite lookup_seq_ge by lia. simpl.
    apply lookup_ge_None. lia.
Qed.

End Settlement.

Lemma promiseAll_resolved (f : nat -> option string) l :
  promiseAll (map (fun i => Resolved (f i)) l) = Some (map f l).
Proof.
  induction l as [|i l IH]; simpl; [done|]. by rewrite IH.
Qed.

Lemma omap_id_map (f : nat -> option string) l :
  omap (fun img => img) (map f l) = omap f l.
Proof.
  induction l as [|i l IH]; [done|].
  change (omap (fun img => img) (f i :: map f l) = omap f (i :: l)).
  cbn [omap list_omap]. destruct (f i); cbn; [f_equal|]; exact IH.
Qed.

Lemma length_omap_filter (f : nat -> option string) l :
  length (omap f l)
  = length (List.filter (fun i => match f i with Some _ => true | None => false end) l).
Proof.
  induction l as [|i l IH]; [done|].
  cbn [omap list_omap List.filter]. destruct (f i); cbn [length]; [f_equal|]; exact IH.
Qed.

(** The join: when every call settles, [Promise.all] yields the values
    in index order. *)
Lemma join_in_index_order remote req schedule w :
  all_settle schedule ->
  promiseAll (fst (run_schedule remote req schedule
                     (fst (dispatch numberOfVariations req w))
                     (snd (dispatch numberOfVariations req w))))
  = Some (map (valueOf remote req (length (calls w))) (seq 0 numberOfVariations)).
Proof.
  intros Hall.
  set (base := length (calls w)).
  pose proof (coherent_dispatch remote req base numberOfVariations w eq_refl) as Hc.
  rewrite (coherent_all_resolved remote req base numberOfVariations _
             (run_schedule_coherent remote req base numberOfVariations schedule _ _ Hc)).
  - apply promiseAll_resolved.
  - intros j Hj. apply (run_schedule_resolves remote req base numberOfVariations); auto.
Qed.

(** What [generateMangaPanel] does when every call settles. *)
Lemma generateMangaPanel_settled remote schedule chars pose prompt w :
  all_settle schedule ->
  let req := buildRequest chars pose prompt in
  let imgs := dispatchOrder remote req (length (calls w)) in
  exists w2,
    calls w2 = calls w ++ replicate numberOfVariations req /\
    generateMangaPanel remote schedule chars pose prompt w
    = match imgs with
      | [] => (Some (Thrown noImagesMessage),
               log (ConsoleError "Gemini API Error:" noImagesMessage) w2)
      | _ :: _ => (Some (Returned imgs), w2)
      end.
Proof.
  intros Hall req imgs.
  pose proof (join_in_index_order remote req schedule w Hall) as Hjoin.
  unfold generateMangaPanel. fold req.
  pose proof (run_schedule_calls remote req schedule
                (fst (dispatch numberOfVariations req w))
                (snd (dispatch numberOfVariations req w))) as Hcalls.
  rewrite (dispatch_spec numberOfVariations req w) in Hjoin, Hcalls |- *.
  cbn [fst snd calls] in Hjoin, Hcalls.
  destruct (run_schedule remote req schedule _ _) as [settled w2].
  cbn [fst snd] in *.
  rewrite Hjoin, omap_id_map. fold (dispatchOrder remote req (length (calls w))).
  fold imgs. exists w2. split; [exact Hcalls|]. by destruct imgs.
Qed.

(** The ten requests are issued whatever happens afterwards. *)
Lemma generateMangaPanel_calls remote schedule chars pose prompt w :
  calls (snd (generateMangaPanel remote schedule chars pose prompt w))
  = calls w ++ replicate numberOfVariations (buildRequest chars pose prompt).
Proof.
  unfold generateMangaPanel.
  set (req := buildRequest chars pose prompt).
  pose proof (run_schedule_calls remote req schedule
                (fst (dispatch numberOfVariations req w))
                (snd (dispatch numberOfVariations req w))) as Hcalls.
  rewrite (dispatch_spec numberOfVariations req w) in Hcalls |- *.
  cbn [fst snd calls] in Hcalls.
  destruct (run_schedule remote req schedule _ _) as [settled w2].
  cbn [fst snd] in *.
  destruct (promiseAll settled) as [results|]; [|done].
  by destruct (length (omap (fun img => img) results) =? 0).
Qed.

Lemma all_settle_reverse : all_settle reverseSchedule.
Proof.
  intros i Hi. unfold numberOfVariations in Hi.
  do 10 (destruct i as [|i]; [repeat constructor|]). lia.
Qed.

Lemma all_settle_swapped : all_settle swappedSchedule.
Proof.
  intros i Hi. unfold numberOfVariations in Hi.
  do 10 (destruct i as [|i]; [repeat constructor|]). lia.
Qed.

(** C1.  A run of the orchestrator issues exactly ten remote calls, all
    with the one request built from its arguments.  When every call
    settles and exactly [k >= 1] of them succeed with an image, the run
    returns a sequence of exactly [k] entries; its entries are exactly
    the images of the successful calls, and no failure of a single call
    reaches the caller (the outcome is a return, not a throw). *)
Theorem fanout_partial_success remote schedule chars pose prompt w k :
  all_settle schedule ->
  successCount remote (buildRequest chars pose prompt) (length (calls w)) = k ->
  1 <= k ->
  k <= 10 /\
  exists imgs w',
    generateMangaPanel remote schedule chars pose prompt w
    = (Some (Returned imgs), w')
    /\ length imgs = k
    /\ (forall img,
           img ∈ imgs <->
           exists i, i < 10 /\
                     valueOf remote (buildRequest chars pose prompt)
                             (length (calls w)) i = Some img)
    /\ calls w' = calls w ++ replicate 10 (buildRequest chars pose prompt).
Proof.
  intros Hall Hk Hpos.
  set (req := buildRequest chars pose prompt) in *.
  set (base := length (calls w)) in *.
  assert (Hlen : length (dispatchOrder remote req base) = k).
  { unfold dispatchOrder. rewrite length_omap_filter. exact Hk. }
  split.
  { rewrite <- Hk. unfold successCount.
    etransitivity; [apply List.filter_length_le|].
    by rewrite length_seq. }
  destruct (generateMangaPanel_settled remote schedule chars pose prompt w Hall)
    as (w2 & Hcalls & Hrun).
  fold req base in Hrun, Hcalls.
  destruct (dispatchOrder remote req base) as [|img0 imgs] eqn:Himgs.
  { simpl in Hlen. lia. }
  exists (img0 :: imgs), w2. repeat split; try done.
  - intros Hin. rewrite <- Himgs in Hin. unfold dispatchOrder in Hin.
    apply list_elem_of_omap in Hin as (i & Hi & Hv).
    apply elem_of_seq in Hi. exists i. split; [unfold numberOfVariations in Hi; lia|done].
  - intros (i & Hi & Hv). rewrite <- Himgs. unfold dispatchOrder.
    apply list_elem_of_omap. exists i. split; [|done].
    apply elem_of_seq. unfold numberOfVariations. lia.
Qed.

Lemma fanout_partial_success_witness :
  all_settle reverseSchedule /\
  successCount (stubRemote (fun n => n <? 7) twoPayloads)
               (buildRequest sampleCharacters samplePose noPrompt)
               (length (calls emptyWorld)) = 7 /\
  1 <= 7 /\
  exists imgs w',
    generateMangaPanel (stubRemote (fun n => n <? 7) twoPayloads) reverseSchedule
                       sampleCharacters samplePose noPrompt emptyWorld
    = (Some (Returned imgs), w')
    /\ length imgs = 7.
Proof.
  split; [exact all_settle_reverse|].
  split; [reflexivity|].
  split; [lia|].
  destruct (fanout_partial_success
              (stubRemote (fun n => n <? 7) twoPayloads) reverseSchedule
              sampleCharacters samplePose noPrompt emptyWorld 7
              all_settle_reverse eq_refl ltac:(lia))
    as (_ & imgs & w' & Hrun & Hlen & _).
  exists imgs, w'. by split.
Defined.

(** C2.  When every call settles and none of the ten yields an image, the
    run throws the single batch-level error "Failed to generate any
      images." (also logged once by the outer handler) and returns no
    sequence.  Whatever the calls do, the caller never receives an empty
    sequence as a successful result. *)
Theorem batch_exhaustion remote schedule chars pose prompt w :
  all_settle schedule ->
  successCount remote (buildRequest chars pose prompt) (length (calls w)) = 0 ->
  (exists w2,
     generateMangaPanel remote schedule chars pose prompt w
     = (Some (Thrown noImagesMessage),
        log (ConsoleError "Gemini API Error:" noImagesMessage) w2))
  /\ (forall imgs,
        fst (generateMangaPanel remote schedule chars pose prompt w)
        <> Some (Returned imgs))
  /\ (forall schedule',
        fst (generateMangaPanel remote schedule' chars pose prompt w)
        <> Some (Returned [])).
Proof.
  intros Hall Hk.
  set (req := buildRequest chars pose prompt) in *.
  set (base := length (calls w)) in *.
  assert (Himgs : dispatchOrder remote req base = []).
  { apply length_zero_iff_nil. unfold dispatchOrder.
    rewrite length_omap_filter. exact Hk. }
  destruct (generateMangaPanel_settled remote schedule chars pose prompt w Hall)
    as (w2 & Hcalls & Hrun).
  fold req base in Hrun. rewrite Himgs in Hrun.
  split; [by exists w2|]. split.
  - intros imgs. by rewrite Hrun.
  - intros schedule'. unfold generateMangaPanel.
    destruct (dispatch numberOfVariations _ w) as [ps w1].
    destruct (run_schedule remote _ schedule' ps w1) as [settled w3].
    destruct (promiseAll settled) as [results|]; [|done].
    destruct (omap (fun img => img) results) as [|img imgs]; done.
Qed.

Lemma batch_exhaustion_witness :
  all_settle reverseSchedule /\
  successCount (stubRemote (fun _ => false) twoPayloads)
               (buildRequest sampleCharacters samplePose noPrompt)
               (length (calls emptyWorld)) = 0 /\
  exists w2,
    generateMangaPanel (stubRemote (fun _ => false) twoPayloads) reverseSchedule
                       sampleCharacters samplePose noPrompt emptyWorld
    = (Some (Thrown noImagesMessage),
       log (ConsoleError "Gemini API Error:" noImagesMessage) w2).
Proof.
  split; [exact all_settle_reverse|].
  split; [reflexivity|].
  exact (proj1 (batch_exhaustion
                  (stubRemote (fun _ => false) twoPayloads) reverseSchedule
                  sampleCharacters samplePose noPrompt emptyWorld
                  all_settle_reverse eq_refl)).
Defined.

(** C4 (as stated) fails: when the second call settles before the first
    and both succeed, the outcome still lists the image of the first
    call first. *)
Lemma completion_order_refuted :
  ~ returns_in_completion_order (stubRemote (fun n => n <? 2) twoPayloads)
      swappedSchedule sampleCharacters samplePose noPrompt emptyWorld.
Proof.
  unfold returns_in_completion_order. vm_compute. intros H. discriminate H.
Qed.

(** C4 (amended).  When every call settles, the outcome lists the
    successful images by array index, that is in dispatch order, whatever
    the order in which the calls settled. *)
Theorem outcome_in_dispatch_order remote schedule chars pose prompt w :
  all_settle schedule ->
  dispatchOrder remote (buildRequest chars pose prompt) (length (calls w)) <> [] ->
  fst (generateMangaPanel remote schedule chars pose prompt w)
  = Some (Returned (dispatchOrder remote (buildRequest chars pose prompt)
                                  (length (calls w)))).
Proof.
  intros Hall Hne.
  destruct (generateMangaPanel_settled remote schedule chars pose prompt w Hall)
    as (w2 & _ & Hrun).
  rewrite Hrun.
  by destruct (dispatchOrder remote (buildRequest chars pose prompt)
                             (length (calls w))).
Qed.

Lemma outcome_in_dispatch_order_witness :
  all_settle swappedSchedule /\
  fst (generateMangaPanel (stubRemote (fun n => n <? 2) twoPayloads)
         swappedSchedule sampleCharacters samplePose noPrompt emptyWorld)
  = Some (Returned ["data:image/png;base64,QQ=="; "data:image/png;base64,Qg=="]).
Proof.
  split; [exact all_settle_swapped|].
  exact (outcome_in_dispatch_order
           (stubRemote (fun n => n <? 2) twoPayloads) swappedSchedule
           sampleCharacters samplePose noPrompt emptyWorld
           all_settle_swapped ltac:(vm_compute; discriminate)).
Defined.

End GeminiFacts.

(** ** Properties of the application shell *)

Module AppFacts.
Import JS GeminiService GeminiSpec GeminiFacts App AppSpec.

(** *** Uploads *)

Lemma acceptedFiles_cons f rest :
  acceptedFiles (f :: rest)
  = if isImageFile f
    then match readFile f with
         | Some dataUrl => dataUrl :: acceptedFiles rest
         | None => acceptedFiles rest
         end
    else acceptedFiles rest.
Proof.
  unfold acceptedFiles. cbn [List.filter].
  destruct (isImageFile f); [|done].
  cbn [omap list_omap]. by destruct (readFile f).
Qed.

Lemma diagnostics_cons f rest :
  diagnostics (f :: rest)
  = if isImageFile f
    then match readFile f with
         | Some _ => diagnostics rest
         | None => ConsoleError "Failed to read file" (name f) :: diagnostics rest
         end
    else diagnostics rest.
Proof.
  unfold diagnostics. cbn [List.filter].
  destruct (isImageFile f); [|done].
  cbn [List.filter]. unfold unreadable at 1. by destruct (readFile f).
Qed.

(** The loop appends the accepted files to the array and the diagnostics
    to the console. *)
Lemma readLoop_spec files : forall newImages w,
  readLoop files newImages w
  = (newImages ++ acceptedFiles files,
     {| calls := calls w; console := console w ++ diagnostics files |}).
Proof.
  induction files as [|file rest IH]; intros newImages w.
  - cbn. rewrite !app_nil_r. by destruct w.
  - cbn [readLoop]. rewrite acceptedFiles_cons, diagnostics_cons.
    unfold isImageFile.
    destruct (startsWith "image/" (type file)); [|apply IH].
    destruct (readFile file) as [dataUrl|]; rewrite IH.
    + by rewrite <- app_assoc.
    + cbn [log calls console]. by rewrite <- app_assoc.
Qed.

(** C6 (as stated) fails: a batch made of one unreadable image leaves the
    error slot empty. *)
Lemma empty_batch_error_refuted :
  ~ surfaces_error_on_empty_batch [brokenFile] initialState emptyWorld.
Proof.
  unfold surfaces_error_on_empty_batch. intros H. by apply H.
Qed.

(** C6 (amended).  [handleCharacterFiles] appends to the character set
    exactly the files that are declared as images and decode, in the
    order given; every file that fails to decode is skipped with one
    logged diagnostic, the rest of the batch is still processed, and no
    error is shown to the user: the error slot is cleared, also when the
    batch yields no image at all (the character set is then unchanged). *)
Theorem character_files_accepted files st w :
  let st' := fst (handleCharacterFiles (Some files) st w) in
  let w' := snd (handleCharacterFiles (Some files) st w) in
  characterImages st' = characterImages st ++ acceptedFiles files
  /\ error st' = None
  /\ console w' = console w ++ diagnostics files
  /\ calls w' = calls w
  /\ poseImage st' = poseImage st
  /\ generatedImages st' = generatedImages st
  /\ isGenerating st' = isGenerating st
  /\ customPrompt st' = customPrompt st.
Proof.
  cbn [handleCharacterFiles]. rewrite readLoop_spec. cbn [app].
  destruct (acceptedFiles files) as [|img imgs]; cbn.
  - rewrite app_nil_r. by repeat split.
  - by repeat split.
Qed.

(** C7.  [handlePoseFile] on a file that is not declared as an image puts
    the validation message in the error slot and leaves the pose
    reference as it was; on an image file that decodes it replaces the
    pose reference by the new data URL and clears the error slot. *)
Theorem pose_file_validated f st w :
  (isImageFile f = false ->
     handlePoseFile (Some f) st w
     = (setError (Some "Please upload a valid image file.") st, w)
     /\ poseImage (fst (handlePoseFile (Some f) st w)) = poseImage st
     /\ error (fst (handlePoseFile (Some f) st w))
        = Some "Please upload a valid image file.")
  /\ (forall dataUrl,
        isImageFile f = true -> readFile f = Some dataUrl ->
        handlePoseFile (Some f) st w
        = (setError None (setPoseImage (Some dataUrl) st), w)
        /\ poseImage (fst (handlePoseFile (Some f) st w)) = Some dataUrl
        /\ error (fst (handlePoseFile (Some f) st w)) = None).
Proof.
  unfold isImageFile, handlePoseFile. split.
  - intros ->. by repeat split.
  - intros dataUrl -> ->. by repeat split.
Qed.

Lemma pose_file_validated_witness :
  (isImageFile textFile = false /\
   error (fst (handlePoseFile (Some textFile) initialState emptyWorld))
   = Some "Please upload a valid image file.")
  /\ (isImageFile pngFile = true /\
      readFile pngFile = Some "data:image/png;base64,iVBORw0KGgo=" /\
      poseImage (fst (handlePoseFile (Some pngFile) initialState emptyWorld))
      = Some "data:image/png;base64,iVBORw0KGgo=").
Proof.
  split.
  - split; [reflexivity|].
    exact (proj2 (proj2 (proj1 (pose_file_validated textFile initialState emptyWorld)
                               eq_refl))).
  - split; [reflexivity|]. split; [reflexivity|].
    exact (proj1 (proj2 (proj2 (pose_file_validated pngFile initialState emptyWorld)
                               _ eq_refl eq_refl))).
Defined.

(** *** Data URLs and the request *)

Lemma strip_prefix_app p s : strip_prefix p (p ++ s) = Some s.
Proof.
  induction p as [|a p IH]; simpl; [by destruct s|].
  by rewrite Ascii.eqb_refl.
Qed.

(** For the four types named in the regular expression the prefix is
    removed and the bare payload is left. *)
Lemma cleanBase64_supported subtype payload :
  In subtype ["png"; "jpeg"; "jpg"; "webp"] ->
  cleanBase64 ("data:image/" ++ subtype ++ ";base64," ++ payload) = payload.
Proof.
  intros [<-|[<-|[<-|[<-|[]]]]]; unfold cleanBase64; simpl; by destruct payload.
Qed.

(** C8 fails on the code for an accepted file of type [image/gif]: the
    upload accepts it ([startsWith "image/"]), but the regular expression
    of the orchestrator only knows png, jpeg, jpg and webp, so the inline
    part carries the whole data URL.  Evaluated on a session that uploads
    a gif character sheet and a png pose: all ten requests carry the
    unstripped gif URL next to the stripped png payload. *)
Theorem gif_prefix_not_stripped :
  ~ sends_bare_payload gifFile
  /\ map inlinePayloads
         (calls (snd (run [CharacterFiles (Some [gifFile]);
                           PoseFile (Some pngFile);
                           Generate allFail reverseSchedule])))
     = replicate 10 ["data:image/gif;base64,R0lGODlh"; "iVBORw0KGgo="].
Proof.
  split.
  - intros H. specialize (H "R0lGODlh" _ eq_refl eq_refl eq_refl).
    discriminate H.
  - vm_compute. reflexivity.
Qed.

(** *** Generation *)

Lemma handleCharacterFiles_pose files st w :
  poseImage (fst (handleCharacterFiles files st w)) = poseImage st.
Proof.
  destruct files as [fs|]; [|done]. cbn [handleCharacterFiles].
  rewrite readLoop_spec. by destruct (0 <? length ([] ++ acceptedFiles fs)).
Qed.

Lemma finishGenerate_pose st outcome :
  poseImage (finishGenerate st outcome) = poseImage st.
Proof. by destruct outcome as [[results|message]|]. Qed.

Lemma handleGenerate_pose remote schedule st w :
  poseImage (fst (handleGenerate remote schedule st w)) = poseImage st.
Proof.
  unfold handleGenerate.
  destruct (length (characterImages st) =? 0); [done|].
  destruct (poseImage st) as [pose|] eqn:Hpose; [|by simpl].
  destruct (truthy pose); [|by simpl].
  destruct (generateMangaPanel _ _ _ _ _ _) as [outcome w'].
  cbn [fst]. by rewrite finishGenerate_pose.
Qed.

(** A data URL is never the empty string, so a pose reference that was
    set through the handlers is one that the generate action sees. *)
Lemma step_posePresent a st w :
  posePresent st -> posePresent (fst (step a (st, w))).
Proof.
  intros Hst p. destruct a as [files|file|index| | |text|remote schedule];
    cbn [step fst].
  - rewrite handleCharacterFiles_pose. apply Hst.
  - unfold handlePoseFile. destruct file as [f|]; [|apply Hst].
    destruct (startsWith "image/" (type f)); [|apply Hst].
    unfold readFile. destruct (content f) as [payload|]; [|apply Hst].
    cbn. intros [= <-]. reflexivity.
  - apply Hst.
  - apply Hst.
  - discriminate.
  - apply Hst.
  - rewrite handleGenerate_pose. apply Hst.
Qed.

Lemma fold_posePresent actions : forall sw,
  posePresent (fst sw) ->
  posePresent (fst (fold_left (fun sw a => step a sw) actions sw)).
Proof.
  induction actions as [|a actions IH]; intros [st w] Hst; [done|].
  cbn [fold_left]. apply IH. by apply step_posePresent.
Qed.

Lemma run_posePresent actions : posePresent (fst (run actions)).
Proof. apply fold_posePresent. discriminate. Qed.

(** The run of [handleGenerate] once the checks have passed. *)
Lemma handleGenerate_passed remote schedule st w pose :
  characterImages st <> [] -> poseImage st = Some pose -> truthy pose = true ->
  handleGenerate remote schedule st w
  = (finishGenerate (beginGenerate st)
       (fst (generateMangaPanel remote schedule (characterImages st) pose
                                (customPrompt st) w)),
     snd (generateMangaPanel remote schedule (characterImages st) pose
                             (customPrompt st) w)).
Proof.
  intros Hchars Hpose Htruthy. unfold handleGenerate.
  destruct (characterImages st) as [|c cs] eqn:Hc; [done|]. cbn [length Nat.eqb].
  rewrite Hpose, Htruthy.
  by destruct (generateMangaPanel _ _ _ _ _ _).
Qed.

(** C3.  A generate action on a state whose character set is empty or
    whose pose reference is unset only writes a validation message to the
    error slot: the world, hence the list of remote calls, is untouched.
    In every state reached through the handlers that has at least one
    character image and a pose reference, the request is built from the
    state and the batch of ten calls is issued with it. *)
Theorem generate_preconditions remote schedule :
  (forall st w,
      characterImages st = [] \/ poseImage st = None ->
      (exists msg,
          (msg = "Please upload at least one character sheet."
           \/ msg = "Please upload a pose/composition reference.")
          /\ handleGenerate remote schedule st w = (setError (Some msg) st, w))
      /\ calls (snd (handleGenerate remote schedule st w)) = calls w)
  /\ (forall actions pose,
        characterImages (fst (run actions)) <> [] ->
        poseImage (fst (run actions)) = Some pose ->
        calls (snd (handleGenerate remote schedule
                      (fst (run actions)) (snd (run actions))))
        = calls (snd (run actions))
          ++ replicate 10 (buildRequest (characterImages (fst (run actions)))
                                        pose
                                        (customPrompt (fst (run actions))))).
Proof.
  split.
  - intros st w Hbad. unfold handleGenerate.
    destruct (characterImages st) as [|c cs] eqn:Hc; cbn [length Nat.eqb].
    + split; [|done]. eexists. split; [by left|done].
    + destruct Hbad as [Hbad|Hbad]; [done|]. rewrite Hbad.
      split; [|done]. eexists. split; [by right|done].
  - intros actions pose Hchars Hpose.
    rewrite (handleGenerate_passed remote schedule _ _ pose Hchars Hpose
               (run_posePresent actions pose Hpose)).
    cbn [snd]. apply generateMangaPanel_calls.
Qed.

Lemma generate_preconditions_witness :
  (characterImages initialState = [] \/ poseImage initialState = None)
  /\ calls (snd (handleGenerate allFail reverseSchedule initialState emptyWorld))
     = calls emptyWorld
  /\ characterImages (fst (run uploaded)) <> []
  /\ poseImage (fst (run uploaded)) = Some "data:image/png;base64,iVBORw0KGgo="
  /\ length (calls (snd (handleGenerate allFail reverseSchedule
                           (fst (run uploaded)) (snd (run uploaded))))) = 10.
Proof.
  split; [by left|].
  split.
  { exact (proj2 (proj1 (generate_preconditions allFail reverseSchedule)
                        initialState emptyWorld (or_introl eq_refl))). }
  split; [discriminate|].
  split; [reflexivity|].
  rewrite (proj2 (generate_preconditions allFail reverseSchedule)
                 uploaded "data:image/png;base64,iVBORw0KGgo="
                 ltac:(discriminate) eq_refl).
  reflexivity.
Defined.

(** C10.  A generate action that passes its checks first sets the
    displayed outcome to the empty sequence and clears the error slot,
    and only then runs the batch on that state.  Hence, when the batch
    throws, the outcome shown before is not restored: the displayed
    outcome is empty and the error slot holds the message of the new
    failure; in particular so when all ten calls settle without an
    image. *)
Theorem failed_generation_clears_outcome remote schedule st w pose :
  characterImages st <> [] -> poseImage st = Some pose -> truthy pose = true ->
  let batch := generateMangaPanel remote schedule (characterImages st) pose
                                  (customPrompt st) w in
  let st' := fst (handleGenerate remote schedule st w) in
  generatedImages (beginGenerate st) = []
  /\ error (beginGenerate st) = None
  /\ handleGenerate remote schedule st w
     = (finishGenerate (beginGenerate st) (fst batch), snd batch)
  /\ (forall message,
        fst batch = Some (Thrown message) ->
        generatedImages st' = []
        /\ error st' = Some (if truthy message then message
                             else "Something went wrong during generation."))
  /\ (all_settle schedule ->
      successCount remote (buildRequest (characterImages st) pose (customPrompt st))
                   (length (calls w)) = 0 ->
      generatedImages st' = [] /\ error st' = Some noImagesMessage).
Proof.
  intros Hchars Hpose Htruthy batch st'. subst st'.
  rewrite (handleGenerate_passed remote schedule st w pose Hchars Hpose Htruthy).
  fold batch. cbn [fst].
  split; [done|]. split; [done|]. split; [done|]. split.
  - intros message ->. by split.
  - intros Hall Hzero.
    destruct (generateMangaPanel_settled remote schedule
                (characterImages st) pose (customPrompt st) w Hall)
      as (w2 & _ & Hrun).
    assert (Himgs : dispatchOrder remote
                      (buildRequest (characterImages st) pose (customPrompt st))
                      (length (calls w)) = []).
    { apply length_zero_iff_nil. unfold dispatchOrder.
      rewrite length_omap_filter. exact Hzero. }
    rewrite Himgs in Hrun. subst batch. rewrite Hrun. by split.
Qed.

Lemma failed_generation_clears_outcome_witness :
  characterImages (fst (run generatedOnce)) <> []
  /\ poseImage (fst (run generatedOnce)) = Some "data:image/png;base64,iVBORw0KGgo="
  /\ length (generatedImages (fst (run generatedOnce))) = 10
  /\ all_settle reverseSchedule
  /\ generatedImages (fst (handleGenerate allFail reverseSchedule
                             (fst (run generatedOnce)) (snd (run generatedOnce))))
     = []
  /\ error (fst (handleGenerate allFail reverseSchedule
                   (fst (run generatedOnce)) (snd (run generatedOnce))))
     = Some noImagesMessage.
Proof.
  split; [discriminate|]. split; [reflexivity|]. split; [reflexivity|].
  split; [exact all_settle_reverse|].
  exact (proj2 (proj2 (proj2 (proj2
           (failed_generation_clears_outcome allFail reverseSchedule
              (fst (run generatedOnce)) (snd (run generatedOnce))
              "data:image/png;base64,iVBORw0KGgo="
              ltac:(discriminate) eq_refl eq_refl))))
           all_settle_reverse eq_refl).
Defined.

End AppFacts.

(** ** Properties of the drawing surface *)

Module CanvasFacts.
Import DrawingCanvas CanvasSpec.
Local Open Scope Qc_scope.

(** *** Coordinate mapping *)



(** What the two drawing handlers send to the context. *)
Lemma startDrawing_ops x y st ctx :
  ctxRef st = Some ctx ->
  option_map ops (ctxRef (startDrawing x y st))
  = Some (ops ctx ++ [BeginPath; MoveTo x y]).
Proof. intros H. unfold startDrawing. by rewrite H. Qed.

Lemma draw_ops x y st ctx :
  ctxRef st = Some ctx -> isDrawing st = true ->
  option_map ops (ctxRef (draw x y st))
  = Some (ops ctx ++ [LineTo x y; Stroke]).
Proof. intros H Hd. unfold draw. by rewrite Hd, H. Qed.

(** A 512 by 512 buffer displayed at 256 by 128: a press in the middle of
    the displayed canvas starts the path in the middle of the buffer, with
    the mouse and with a finger. *)
Example press_lands_in_the_middle :
  let st := mount (num 512) (num 512) sampleCanvas in
  option_map ops (ctxRef (handleMouseDown {| offsetX := num 128; offsetY := num 64 |} st))
  = Some [FillRect (num 0) (num 0) (num 512) (num 512);
          BeginPath; MoveTo (num 256) (num 256)]
  /\ option_map ops
       (ctxRef (handleTouchStart
                  {| touches := [{| clientX := num 138; clientY := num 84 |}] |} st))
     = Some [FillRect (num 0) (num 0) (num 512) (num 512);
             BeginPath; MoveTo (num 256) (num 256)].
Proof. cbv zeta. split; by vm_compute. Qed.

(** *** The emptiness flag *)

Lemma isEmpty_mount w h canvas : isEmpty (mount w h canvas) = true.
Proof. unfold mount, initialize. cbn. by destruct (supports2d canvas). Qed.

Lemma ready_mount w h canvas :
  supports2d canvas = true -> ready (mount w h canvas).
Proof. intros H. unfold mount, initialize. cbn. rewrite H. by split. Qed.

Lemma initialize_ready st : ready st -> ready (initialize st).
Proof.
  intros [Hc Hx]. unfold initialize.
  destruct (canvasRef st) as [canvas|] eqn:Hcanvas; [|done].
  destruct (supports2d canvas); split; cbn; done.
Qed.

Lemma initialize_hasContent st : hasContent (initialize st) = hasContent st.
Proof.
  unfold initialize. destruct (canvasRef st) as [canvas|]; [|done].
  by destruct (supports2d canvas).
Qed.

Lemma rerender_hasContent w h st : hasContent (rerender w h st) = hasContent st.
Proof.
  unfold rerender.
  destruct (Qc_eq_dec w (width st)); [destruct (Qc_eq_dec h (height st))|];
    try done; by rewrite initialize_hasContent.
Qed.

Lemma apply_op_ready o st : ready st -> ready (apply_op o st).
Proof.
  intros Hr. pose proof Hr as [Hc Hx].
  destruct o as [w h|x y|x y| |]; cbn [apply_op].
  - unfold rerender.
    destruct (Qc_eq_dec w (width st)); [destruct (Qc_eq_dec h (height st))|];
      try done; by apply initialize_ready.
  - unfold startDrawing. by destruct (ctxRef st).
  - unfold draw. destruct (negb (isDrawing st)); [done|]. by destruct (ctxRef st).
  - unfold stopDrawing. by destruct (ctxRef st).
  - unfold clearCanvas.
    destruct (canvasRef st) eqn:E1; [|done].
    destruct (ctxRef st) eqn:E2; [|done].
    split; cbn; congruence.
Qed.

(** After [clearCanvas] on a surface whose context exists the flag is
    reset. *)
Lemma isEmpty_clear st : ready st -> isEmpty (clearCanvas st) = true.
Proof.
  intros [Hc Hx]. unfold clearCanvas.
  destruct (canvasRef st); [|done]. by destruct (ctxRef st).
Qed.

(** A pointer-down marks the surface as drawn on. *)
Lemma isEmpty_startDrawing x y st :
  ready st -> isEmpty (startDrawing x y st) = false.
Proof. intros [Hc Hx]. unfold startDrawing. by destruct (ctxRef st). Qed.

(** Only [Clear] and [BeginStroke] change the flag. *)
Lemma apply_op_hasContent o st :
  ready st ->
  hasContent (apply_op o st)
  = if isClear o then false
    else if isBeginStroke o then true
    else hasContent st.
Proof.
  intros [Hc Hx]. destruct o as [w h|x y|x y| |]; cbn [apply_op isClear isBeginStroke].
  - apply rerender_hasContent.
  - unfold startDrawing. by destruct (ctxRef st).
  - unfold draw. destruct (negb (isDrawing st)); [done|]. by destruct (ctxRef st).
  - unfold stopDrawing. by destruct (ctxRef st).
  - unfold clearCanvas. destruct (canvasRef st); [|done]. by destruct (ctxRef st).
Qed.

(** As long as no [Clear] is applied, the surface is empty exactly when
    it was empty before and no stroke was begun since. *)
Lemma isEmpty_without_clear os : forall st,
  ready st ->
  forallb (fun o => negb (isClear o)) os = true ->
  isEmpty (apply_ops os st) = isEmpty st && negb (existsb isBeginStroke os).
Proof.
  induction os as [|o os IH]; intros st Hr Hnc.
  - cbn. by rewrite andb_true_r.
  - cbn [forallb] in Hnc. apply andb_prop in Hnc as [Ho Hos].
    unfold apply_ops in *. cbn [fold_left existsb].
    rewrite IH by (by try apply apply_op_ready).
    unfold isEmpty. rewrite apply_op_hasContent by done.
    apply negb_true_iff in Ho. rewrite Ho.
    destruct (isBeginStroke o); cbn; [|done].
    by rewrite andb_false_r.
Qed.

(** C9 fails on the code when the effect runs again: after a stroke, a
    render with new dimensions repaints the whole buffer with the
    background (the only thing left on the new bitmap is that fill), yet
    the flag set by the stroke is kept, so [isEmpty()] answers [false]
    right after this [Initialize].  [clearCanvas], which paints the same
    fill, does reset the flag. *)
Theorem isEmpty_after_reinitialize :
  let st := apply_ops strokeThenResize (mount (num 512) (num 512) sampleCanvas) in
  isEmpty st = false
  /\ option_map ops (ctxRef st)
     = Some [FillRect (num 0) (num 0) (num 256) (num 256)]
  /\ isEmpty (clearCanvas st) = true.
Proof. cbv zeta. by vm_compute. Qed.

End CanvasFacts.

(** ** The pointer handlers on binary64 numbers *)

Module Binary64Facts.
Import PrimFloat Binary64 Binary64Spec.
Local Open Scope float_scope.

(** The product of 98 with the rounded scale 512/196 is one unit in the
    last place below 256. *)
Lemma rounded_scale_misses_256 :
  exact (98 * (512 / 196)) = Some (9007199254740991 * Qpower (2 # 1) (-45))%Q
  /\ ~ (9007199254740991 * Qpower (2 # 1) (-45) == 98 * 512 / 196)%Q.
Proof. split; [by vm_compute|]. by vm_compute. Qed.




End Binary64Facts.

(** ** Further properties of the orchestrator *)

Module GeminiMore.
Import JS GeminiService GeminiSpec GeminiFacts App AppSpec MoreSpec.

(** *** Data URLs *)

Lemma strip_prefix_Some p : forall s rest,
  strip_prefix p s = Some rest -> s = (p ++ rest)%string.
Proof.
  induction p as [|a p IH]; intros s rest H.
  - simpl in H. by injection H as ->.
  - destruct s as [|b s]; [done|]. simpl in H.
    destruct (Ascii.eqb a b) eqn:Hab; [|done].
    apply Ascii.eqb_eq in Hab as ->. simpl. f_equal. by apply IH.
Qed.

Lemma replace_first_prefix_split ps s :
  exists p, s = (p ++ replace_first_prefix ps s)%string
            /\ (p = EmptyString \/ In p ps).
Proof.
  induction ps as [|q ps IH]; simpl.
  - exists EmptyString. by split; [|left].
  - destruct (strip_prefix q s) as [rest|] eqn:Hq.
    + exists q. split; [by apply strip_prefix_Some|]. right. by left.
    + destruct IH as (p & Hp & Hin). exists p. split; [done|].
      destruct Hin as [->|Hin]; [by left|]. right. by right.
Qed.

(** X1.  [cleanBase64] removes nothing, or exactly one of the four prefixes of
    the regular expression from the start of the string; what it returns
    is the rest of the string. *)
Theorem cleanBase64_split s :
  exists p, s = (p ++ cleanBase64 s)%string
            /\ (p = EmptyString \/ In p dataUrlPrefixes).
Proof. apply replace_first_prefix_split. Qed.

Lemma prefix_nil s : String.prefix EmptyString s = true.
Proof. by destruct s. Qed.

Lemma prefix_app_l p : forall s rest,
  String.prefix p s = true -> String.prefix p (s ++ rest) = true.
Proof.
  induction p as [|a p IH]; intros s rest H; [apply prefix_nil|].
  destruct s as [|b s]; [done|]. simpl in *.
  destruct (ascii_dec a b); [|done]. by apply IH.
Qed.

Lemma prefix_refl p rest : String.prefix p (p ++ rest) = true.
Proof.
  induction p as [|a p IH]; simpl; [apply prefix_nil|].
  by destruct (ascii_dec a a).
Qed.

Lemma prefix_trans p : forall q s,
  String.prefix p q = true -> String.prefix q s = true ->
  String.prefix p s = true.
Proof.
  induction p as [|a p IH]; intros q s Hpq Hqs; [apply prefix_nil|].
  destruct q as [|b q]; [done|]. destruct s as [|c s]; [done|].
  simpl in *. destruct (ascii_dec a b) as [->|]; [|done].
  destruct (ascii_dec b c) as [->|]; [|done]. by eapply IH.
Qed.

(** X2.  A string that is not an image data URL, such as a bare base64
    payload, goes into the request unchanged. *)
Theorem cleanBase64_bare s :
  startsWith "data:image/" s = false -> cleanBase64 s = s.
Proof.
  intros Hs.
  destruct (replace_first_prefix_split dataUrlPrefixes s) as (p & Hp & [->|Hin]);
    fold (cleanBase64 s) in Hp.
  - by rewrite Hp at 2.
  - exfalso. rewrite Hp in Hs. unfold startsWith in Hs.
    assert (String.prefix "data:image/" p = true) as Hpre.
    { destruct Hin as [<-|[<-|[<-|[<-|[]]]]]; reflexivity. }
    by rewrite (prefix_app_l _ _ _ Hpre) in Hs.
Qed.

Lemma cleanBase64_bare_witness :
  startsWith "data:image/" "iVBORw0KGgo=" = false
  /\ cleanBase64 "iVBORw0KGgo=" = "iVBORw0KGgo=".
Proof.
  split; [reflexivity|]. exact (cleanBase64_bare "iVBORw0KGgo=" eq_refl).
Defined.

(** *** One response *)

(** X3.  The loop over the parts returns the first payload that is present and
    not empty, as a png data URL; parts without inline data, or with empty
    data, are passed over. *)
Theorem firstInlineImage_first_usable ps :
  firstInlineImage ps
  = option_map (String.append pngPrefix) (head (omap usableData ps)).
Proof.
  induction ps as [|part ps IH]; [done|].
  cbn [firstInlineImage omap list_omap]. unfold usableData at 1.
  destruct (r_inlineData part) as [inl|]; [|exact IH].
  destruct (r_data inl) as [d|]; [|exact IH].
  destruct (truthy d); [reflexivity|exact IH].
Qed.

Lemma firstInlineImage_generated ps img :
  firstInlineImage ps = Some img -> isGeneratedUrl img.
Proof.
  induction ps as [|part ps IH]; [done|]. cbn [firstInlineImage].
  destruct (r_inlineData part) as [inl|]; [|exact IH].
  destruct (r_data inl) as [d|]; [|exact IH].
  destruct (truthy d) eqn:Ht; [|exact IH].
  intros [= <-]. by exists d.
Qed.

Lemma singleValue_generated s img :
  singleValue s = Some img -> isGeneratedUrl img.
Proof.
  unfold singleValue. destruct s as [response|reason]; [|done].
  destruct response as [cands]. destruct cands as [[|c cs]|]; try done.
  destruct c as [[ps|]]; [|done].
  cbn. apply firstInlineImage_generated.
Qed.

(** X4.  A generated image can be fed back as a reference: the orchestrator
    strips its prefix and is left with the payload the service sent. *)
Theorem generated_image_round_trip img :
  isGeneratedUrl img ->
  exists d, truthy d = true /\ img = (pngPrefix ++ d)%string /\ cleanBase64 img = d.
Proof.
  intros (d & Hd & ->). exists d. split; [done|]. split; [done|].
  unfold cleanBase64, pngPrefix. simpl. by destruct d.
Qed.

Lemma generated_image_round_trip_witness :
  isGeneratedUrl "data:image/png;base64,QQ=="
  /\ cleanBase64 "data:image/png;base64,QQ==" = "QQ==".
Proof.
  assert (H : isGeneratedUrl "data:image/png;base64,QQ==").
  { exists "QQ==". by split. }
  split; [exact H|].
  destruct (generated_image_round_trip _ H) as (d & _ & Heq & Hclean).
  rewrite Hclean. injection Heq as ->. reflexivity.
Defined.

(** *** The request *)

Lemma inlinePayloads_characterParts chars tail :
  omap (fun p => match p with
                 | InlinePart i => Some (data i)
                 | TextPart _ => None
                 end) (characterParts chars ++ tail)
  = map cleanBase64 chars
    ++ omap (fun p => match p with
                      | InlinePart i => Some (data i)
                      | TextPart _ => None
                      end) tail.
Proof.
  induction chars as [|c chars IH]; [done|].
  cbn [characterParts map app omap list_omap] in *. cbn. f_equal. exact IH.
Qed.

(** X5.  The request holds the instruction text first, then one inline image
    per character sheet in the order of the character set, then the pose;
    the payloads are the cleaned inputs and every inline part is declared
    as [image/png], whatever the type of the upload was. *)
Theorem request_layout chars pose prompt :
  let req := buildRequest chars pose prompt in
  head (parts req) = Some (TextPart (promptText chars prompt))
  /\ length (parts req) = length chars + 2
  /\ inlinePayloads req = map cleanBase64 chars ++ [cleanBase64 pose]
  /\ Forall declaredPng (parts req)
  /\ model req = "gemini-2.5-flash-image" /\ aspectRatio req = "16:9".
Proof.
  cbv zeta. unfold buildRequest, inlinePayloads. cbn [parts model aspectRatio head].
  split; [done|]. split.
  { cbn [length]. rewrite length_app. unfold characterParts.
    rewrite length_map. cbn. lia. }
  split.
  { cbn [omap list_omap]. by rewrite inlinePayloads_characterParts. }
  split; [|done].
  constructor; [done|]. apply Forall_app. split.
  - unfold characterParts. apply Forall_forall. intros p Hp.
    apply list_elem_of_fmap in Hp as (img & -> & _). reflexivity.
  - by constructor.
Qed.

(** *** The batch under any schedule *)

Lemma promiseAll_Some ps vs :
  promiseAll ps = Some vs -> ps = map Resolved vs.
Proof.
  revert vs. induction ps as [|p ps IH]; intros vs H.
  - by injection H as <-.
  - destruct p as [c|v]; [done|]. simpl in H.
    destruct (promiseAll ps) as [vs'|]; [|done].
    injection H as <-. simpl. f_equal. by apply IH.
Qed.

Lemma promiseAll_pending ps i c :
  ps !! i = Some (Pending c) -> promiseAll ps = None.
Proof.
  intros Hi. destruct (promiseAll ps) as [vs|] eqn:Hall; [|done].
  apply promiseAll_Some in Hall. subst ps.
  rewrite list_lookup_fmap in Hi. by destruct (vs !! i).
Qed.

Lemma settle_pending remote req j ps w i c :
  i <> j -> ps !! i = Some (Pending c) ->
  fst (settle remote req j ps w) !! i = Some (Pending c).
Proof.
  intros Hne Hi. unfold settle.
  destruct (ps !! j) as [[c'|v]|]; try done.
  destruct (singleResult (remote c' req) w) as [v w']. cbn.
  by rewrite list_lookup_insert_ne.
Qed.

Lemma run_schedule_pending remote req schedule : forall ps w i c,
  i ∉ schedule -> ps !! i = Some (Pending c) ->
  fst (run_schedule remote req schedule ps w) !! i = Some (Pending c).
Proof.
  induction schedule as [|j schedule IH]; intros ps w i c Hnot Hi; [done|].
  apply not_elem_of_cons in Hnot as [Hne Hnot]. cbn [run_schedule].
  pose proof (settle_pending remote req j ps w i c Hne Hi) as Hi'.
  destruct (settle remote req j ps w) as [ps' w']. by apply IH.
Qed.

Lemma dispatch_lookup n req w i :
  i < n -> fst (dispatch n req w) !! i = Some (Pending (length (calls w) + i)).
Proof.
  intros Hi. rewrite dispatch_spec. cbn [fst].
  rewrite list_lookup_fmap, lookup_seq_lt by done. reflexivity.
Qed.

Lemma stalled_call_blocks remote schedule chars pose prompt w i :
  i < numberOfVariations -> i ∉ schedule ->
  fst (generateMangaPanel remote schedule chars pose prompt w) = None.
Proof.
  intros Hi Hnot. unfold generateMangaPanel.
  set (req := buildRequest chars pose prompt).
  pose proof (dispatch_lookup numberOfVariations req w i Hi) as Hpend.
  destruct (dispatch numberOfVariations req w) as [ps w1]. cbn [fst] in Hpend.
  pose proof (run_schedule_pending remote req schedule ps w1 i _ Hnot Hpend) as Hp.
  destruct (run_schedule remote req schedule ps w1) as [settled w2].
  cbn [fst] in Hp. by rewrite (promiseAll_pending _ _ _ Hp).
Qed.

Lemma returned_all_settle remote schedule chars pose prompt w :
  is_Some (fst (generateMangaPanel remote schedule chars pose prompt w)) ->
  all_settle schedule.
Proof.
  intros Hret i Hi. destruct (decide (i ∈ schedule)) as [|Hnot]; [done|].
  rewrite (stalled_call_blocks remote schedule chars pose prompt w i Hi Hnot) in Hret.
  by destruct Hret.
Qed.

(** X6.  The function returns, with a sequence or with the batch error, exactly
    when every one of the ten calls settles: a single call that never
    settles blocks the caller for ever. *)
Theorem returns_iff_all_settle remote schedule chars pose prompt w :
  is_Some (fst (generateMangaPanel remote schedule chars pose prompt w))
  <-> all_settle schedule.
Proof.
  split; [apply returned_all_settle|].
  - intros Hall.
    destruct (generateMangaPanel_settled remote schedule chars pose prompt w Hall)
      as (w2 & _ & ->).
    by destruct (dispatchOrder _ _ _).
Qed.

Lemma returned_dispatchOrder remote schedule chars pose prompt w imgs :
  fst (generateMangaPanel remote schedule chars pose prompt w)
  = Some (Returned imgs) ->
  imgs <> []
  /\ imgs = dispatchOrder remote (buildRequest chars pose prompt) (length (calls w)).
Proof.
  intros Hret.
  assert (Hall : all_settle schedule).
  { apply (returned_all_settle remote schedule chars pose prompt w).
    by rewrite Hret. }
  destruct (generateMangaPanel_settled remote schedule chars pose prompt w Hall)
    as (w2 & _ & Hrun).
  rewrite Hrun in Hret.
  destruct (dispatchOrder _ _ _) as [|img0 rest]; [done|].
  cbn [fst] in Hret. by injection Hret as <-.
Qed.

Lemma dispatchOrder_length remote req base :
  length (dispatchOrder remote req base) <= 10.
Proof.
  unfold dispatchOrder. rewrite length_omap_filter.
  etransitivity; [apply List.filter_length_le|]. by rewrite length_seq.
Qed.

Lemma dispatchOrder_generated remote req base :
  Forall isGeneratedUrl (dispatchOrder remote req base).
Proof.
  apply Forall_forall. intros img Hin. unfold dispatchOrder in Hin.
  apply list_elem_of_omap in Hin as (i & _ & Hv).
  by eapply singleValue_generated.
Qed.

(** X7.  A sequence that is returned has between one and ten entries, and each
    entry is a png data URL with a non-empty payload; this holds for every
    schedule and every service. *)
Theorem returned_sequence_bounds remote schedule chars pose prompt w imgs :
  fst (generateMangaPanel remote schedule chars pose prompt w)
  = Some (Returned imgs) ->
  1 <= length imgs <= 10 /\ Forall isGeneratedUrl imgs.
Proof.
  intros Hret.
  destruct (returned_dispatchOrder _ _ _ _ _ _ _ Hret) as [Hne ->].
  split; [split|].
  - destruct (dispatchOrder _ _ _); [done|cbn; lia].
  - apply dispatchOrder_length.
  - apply dispatchOrder_generated.
Qed.

Lemma returned_sequence_bounds_witness :
  exists imgs,
    fst (generateMangaPanel (stubRemote (fun n => n <? 7) twoPayloads)
           reverseSchedule sampleCharacters samplePose noPrompt emptyWorld)
    = Some (Returned imgs)
    /\ 1 <= length imgs <= 10.
Proof.
  eexists. split; [reflexivity|].
  exact (proj1 (returned_sequence_bounds
                  (stubRemote (fun n => n <? 7) twoPayloads)
                  reverseSchedule sampleCharacters samplePose noPrompt emptyWorld
                  _ eq_refl)).
Defined.

(** X8.  Two runs on the same inputs in which every call settles give the same
    outcome, success or batch error, whatever the two orders of
    settlement. *)
Theorem outcome_independent_of_schedule remote s1 s2 chars pose prompt w :
  all_settle s1 -> all_settle s2 ->
  fst (generateMangaPanel remote s1 chars pose prompt w)
  = fst (generateMangaPanel remote s2 chars pose prompt w).
Proof.
  intros H1 H2.
  destruct (generateMangaPanel_settled remote s1 chars pose prompt w H1)
    as (w1 & _ & ->).
  destruct (generateMangaPanel_settled remote s2 chars pose prompt w H2)
    as (w2 & _ & ->).
  by destruct (dispatchOrder _ _ _).
Qed.

Lemma outcome_independent_of_schedule_witness :
  all_settle reverseSchedule /\ all_settle swappedSchedule
  /\ fst (generateMangaPanel (stubRemote (fun n => n <? 2) twoPayloads)
            reverseSchedule sampleCharacters samplePose noPrompt emptyWorld)
     = fst (generateMangaPanel (stubRemote (fun n => n <? 2) twoPayloads)
              swappedSchedule sampleCharacters samplePose noPrompt emptyWorld).
Proof.
  split; [exact all_settle_reverse|]. split; [exact all_settle_swapped|].
  exact (outcome_independent_of_schedule
           (stubRemote (fun n => n <? 2) twoPayloads)
           reverseSchedule swappedSchedule sampleCharacters samplePose noPrompt
           emptyWorld all_settle_reverse all_settle_swapped).
Defined.

(** *** The console *)

Lemma singleResult_console s w :
  console (snd (singleResult s w))
  = console w ++ console (snd (singleResult s emptyWorld)).
Proof.
  destruct s as [response|reason]; [|done].
  destruct response as [cands]. destruct cands as [[|c cs]|]; cbn;
    try (by rewrite app_nil_r).
  destruct c as [[ps|]]; cbn; [by rewrite app_nil_r|done].
Qed.

Lemma run_schedule_console remote req base schedule : forall ps w,
  NoDup schedule ->
  (forall i, i ∈ schedule -> ps !! i = Some (Pending (base + i))) ->
  console (snd (run_schedule remote req schedule ps w))
  = console w ++ flat_map (warningsOf remote req base) schedule.
Proof.
  induction schedule as [|i schedule IH]; intros ps w Hnd Hpend.
  - cbn. by rewrite app_nil_r.
  - apply NoDup_cons in Hnd as [Hnot Hnd]. cbn [run_schedule flat_map].
    unfold settle. rewrite (Hpend i) by (by left).
    pose proof (singleResult_console (remote (base + i) req) w) as Hc.
    destruct (singleResult (remote (base + i) req) w) as [v w'].
    cbn [snd] in Hc. rewrite IH; [|done|].
    + rewrite Hc. unfold warningsOf at 2. by rewrite <- app_assoc.
    + intros j Hj. rewrite list_lookup_insert_ne by (intros ->; done).
      apply Hpend. by right.
Qed.

(** X9.  When the ten calls settle once each, the console receives the
    warnings of the failed calls in the order of settlement, followed by
    the one error of the outer handler when no call produced an image.
    The console is the only place where the order of settlement shows. *)
Theorem console_in_settlement_order remote schedule chars pose prompt w :
  NoDup schedule ->
  (forall i, i ∈ schedule <-> i < numberOfVariations) ->
  let req := buildRequest chars pose prompt in
  let base := length (calls w) in
  console (snd (generateMangaPanel remote schedule chars pose prompt w))
  = console w
    ++ flat_map (warningsOf remote req base) schedule
    ++ match dispatchOrder remote req base with
       | [] => [ConsoleError "Gemini API Error:" noImagesMessage]
       | _ :: _ => []
       end.
Proof.
  intros Hnd Hperm req base.
  assert (Hall : all_settle schedule) by (intros i Hi; by apply Hperm).
  pose proof (join_in_index_order remote req schedule w Hall) as Hjoin.
  pose proof (run_schedule_console remote req base schedule
                (fst (dispatch numberOfVariations req w))
                (snd (dispatch numberOfVariations req w)) Hnd) as Hcons.
  unfold generateMangaPanel. fold req.
  destruct (dispatch numberOfVariations req w) as [ps w1] eqn:Hd.
  assert (Hw1 : console w1 = console w).
  { pose proof (dispatch_spec numberOfVariations req w) as Hs.
    rewrite Hd in Hs. by injection Hs as _ ->. }
  cbn [fst snd] in *.
  assert (Hpend : forall i, i ∈ schedule -> ps !! i = Some (Pending (base + i))).
  { intros i Hi. apply Hperm in Hi.
    pose proof (dispatch_lookup numberOfVariations req w i Hi) as Hl.
    by rewrite Hd in Hl. }
  specialize (Hcons Hpend).
  destruct (run_schedule remote req schedule ps w1) as [settled w2].
  cbn [fst snd] in *. rewrite Hjoin, omap_id_map.
  fold base. fold (dispatchOrder remote req base).
  destruct (dispatchOrder remote req base) as [|img rest]; cbn [length Nat.eqb snd].
  - cbn [log console]. rewrite Hcons, Hw1. by rewrite <- app_assoc.
  - rewrite Hcons, Hw1. by rewrite app_nil_r.
Qed.

Lemma console_in_settlement_order_witness :
  NoDup swappedSchedule
  /\ (forall i, i ∈ swappedSchedule <-> i < numberOfVariations)
  /\ length (console (snd (generateMangaPanel
                             (stubRemote (fun n => n <? 2) twoPayloads)
                             swappedSchedule sampleCharacters samplePose
                             noPrompt emptyWorld))) = 8.
Proof.
  assert (Hnd : NoDup swappedSchedule).
  { apply (bool_decide_unpack _). by vm_compute. }
  assert (Hperm : forall i, i ∈ swappedSchedule <-> i < numberOfVariations).
  { intros i. unfold swappedSchedule, numberOfVariations.
    repeat rewrite elem_of_cons. rewrite elem_of_nil. lia. }
  split; [exact Hnd|]. split; [exact Hperm|].
  rewrite (console_in_settlement_order
             (stubRemote (fun n => n <? 2) twoPayloads) swappedSchedule
             sampleCharacters samplePose noPrompt emptyWorld Hnd Hperm).
  reflexivity.
Defined.

End GeminiMore.

(** ** Further properties of the application shell *)

Module AppMore.
Import JS GeminiService GeminiSpec GeminiFacts App AppSpec AppFacts.
Import AppView MoreSpec GeminiMore.

(** *** Uploads *)

(** X10.  For a file of one of the four types known to the orchestrator, reading
    the file and cleaning the data URL gives back the base64 payload of
    the file. *)
Theorem upload_round_trip f payload :
  In (type f) strippedTypes -> content f = Some payload ->
  isImageFile f = true
  /\ option_map cleanBase64 (readFile f) = Some payload.
Proof.
  intros Hin Hc. unfold isImageFile, readFile. rewrite Hc.
  destruct Hin as [<-|[<-|[<-|[<-|[]]]]]; (split; [reflexivity|]);
    cbn [option_map]; f_equal; unfold cleanBase64; simpl; by destruct payload.
Qed.

Lemma upload_round_trip_witness :
  In (type jpegFile) strippedTypes /\ content jpegFile = Some "/9j/4AAQ"
  /\ option_map cleanBase64 (readFile jpegFile) = Some "/9j/4AAQ".
Proof.
  split; [right; by left|]. split; [reflexivity|].
  exact (proj2 (upload_round_trip jpegFile "/9j/4AAQ"
                  (or_intror (or_introl eq_refl)) eq_refl)).
Defined.

Lemma acceptedFiles_app fs1 fs2 :
  acceptedFiles (fs1 ++ fs2) = acceptedFiles fs1 ++ acceptedFiles fs2.
Proof.
  induction fs1 as [|f fs1 IH]; [done|].
  rewrite <- app_comm_cons, !acceptedFiles_cons, IH.
  destruct (isImageFile f); [|done]. by destruct (readFile f).
Qed.

Lemma diagnostics_app fs1 fs2 :
  diagnostics (fs1 ++ fs2) = diagnostics fs1 ++ diagnostics fs2.
Proof.
  induction fs1 as [|f fs1 IH]; [done|].
  rewrite <- app_comm_cons, !diagnostics_cons, IH.
  destruct (isImageFile f); [|done]. by destruct (readFile f).
Qed.

Lemma handleCharacterFiles_eq fs st w :
  handleCharacterFiles (Some fs) st w
  = (setCharacterImages (characterImages st ++ acceptedFiles fs) (setError None st),
     {| calls := calls w; console := console w ++ diagnostics fs |}).
Proof.
  cbn [handleCharacterFiles]. rewrite readLoop_spec. cbn [app].
  destruct (acceptedFiles fs) as [|img imgs]; cbn; [|done].
  rewrite app_nil_r. by destruct st.
Qed.

(** X11.  Uploading a list of files in two batches, one after the other, leaves
    the same state and the same console as uploading them in one batch. *)
Theorem character_batches_compose fs1 fs2 st w :
  handleCharacterFiles (Some (fs1 ++ fs2)) st w
  = handleCharacterFiles (Some fs2)
      (fst (handleCharacterFiles (Some fs1) st w))
      (snd (handleCharacterFiles (Some fs1) st w)).
Proof.
  rewrite !handleCharacterFiles_eq. cbn [fst snd].
  rewrite acceptedFiles_app, diagnostics_app.
  unfold setCharacterImages, setError. cbn. by rewrite !app_assoc.
Qed.

(** *** Removing a character sheet *)

Lemma filterIndexNe_past index : forall l k,
  index < k -> filterIndexNe index k l = l.
Proof.
  induction l as [|x l IH]; intros k Hk; [done|]. cbn [filterIndexNe].
  destruct (k =? index) eqn:E; [apply Nat.eqb_eq in E; lia|].
  f_equal. apply IH. lia.
Qed.

Lemma filterIndexNe_spec index : forall l k,
  k <= index ->
  filterIndexNe index k l = take (index - k) l ++ drop (S (index - k)) l.
Proof.
  induction l as [|x l IH]; intros k Hk.
  - by rewrite take_nil, drop_nil.
  - cbn [filterIndexNe]. destruct (k =? index) eqn:E.
    + apply Nat.eqb_eq in E as ->. rewrite Nat.sub_diag. cbn.
      rewrite drop_0. apply filterIndexNe_past. lia.
    + apply Nat.eqb_neq in E.
      replace (index - k) with (S (index - S k)) by lia. cbn.
      f_equal. apply IH. lia.
Qed.

(** X12.  [removeCharacterImage] deletes the image at the given position and
    keeps the others in their order; a position outside the set changes
    nothing.  The other fields of the state are untouched. *)
Theorem removeCharacterImage_spec index st :
  let cs := characterImages st in
  let st' := removeCharacterImage index st in
  characterImages st' = take index cs ++ drop (S index) cs
  /\ length (characterImages st')
     = length cs - (if index <? length cs then 1 else 0)
  /\ (length cs <= index -> characterImages st' = cs)
  /\ poseImage st' = poseImage st /\ generatedImages st' = generatedImages st
  /\ error st' = error st /\ customPrompt st' = customPrompt st.
Proof.
  cbv zeta. unfold removeCharacterImage, setCharacterImages.
  cbn [characterImages poseImage generatedImages error customPrompt].
  rewrite filterIndexNe_spec by lia. rewrite Nat.sub_0_r.
  split; [done|]. split.
  - rewrite length_app, length_take, length_drop.
    destruct (index <? length (characterImages st)) eqn:E.
    + apply Nat.ltb_lt in E. lia.
    + apply Nat.ltb_ge in E. lia.
  - split; [|done]. intros Hge.
    rewrite take_ge by done. rewrite drop_ge by lia. apply app_nil_r.
Qed.

Lemma removeCharacterImage_spec_witness :
  length (characterImages (fst (run uploaded))) <= 5
  /\ characterImages (removeCharacterImage 5 (fst (run uploaded)))
     = characterImages (fst (run uploaded)).
Proof.
  split; [cbn; lia|].
  apply (proj1 (proj2 (proj2 (removeCharacterImage_spec 5 (fst (run uploaded)))))).
  cbn. lia.
Defined.

(** X13.  Adding one image and removing the image at the position it was given
    restores the character set. *)
Theorem upload_then_remove f dataUrl st w :
  isImageFile f = true -> readFile f = Some dataUrl ->
  characterImages
    (removeCharacterImage (length (characterImages st))
       (fst (handleCharacterFiles (Some [f]) st w)))
  = characterImages st.
Proof.
  intros Himg Hread. rewrite handleCharacterFiles_eq. cbn [fst].
  rewrite acceptedFiles_cons, Himg, Hread.
  unfold removeCharacterImage, setCharacterImages, setError.
  cbn [characterImages].
  rewrite filterIndexNe_spec by lia. rewrite Nat.sub_0_r.
  rewrite take_app_length.
  rewrite drop_app_ge by lia.
  replace (S (length (characterImages st)) - length (characterImages st))
    with 1 by lia.
  cbn. apply app_nil_r.
Qed.

Lemma upload_then_remove_witness :
  isImageFile gifFile = true
  /\ readFile gifFile = Some "data:image/gif;base64,R0lGODlh"
  /\ characterImages
       (removeCharacterImage (length (characterImages (fst (run uploaded))))
          (fst (handleCharacterFiles (Some [gifFile])
                  (fst (run uploaded)) (snd (run uploaded)))))
     = characterImages (fst (run uploaded)).
Proof.
  split; [reflexivity|]. split; [reflexivity|].
  exact (upload_then_remove gifFile _ (fst (run uploaded)) (snd (run uploaded))
           eq_refl eq_refl).
Defined.

(** *** Invariants of a session *)

Lemma readFile_isDataUrl f dataUrl :
  readFile f = Some dataUrl -> isDataUrl dataUrl.
Proof.
  unfold readFile, isDataUrl, startsWith.
  destruct (content f) as [payload|]; [|done]. intros [= <-].
  apply (prefix_refl "data:").
Qed.

Lemma acceptedFiles_isDataUrl fs : Forall isDataUrl (acceptedFiles fs).
Proof.
  induction fs as [|f fs IH]; [constructor|]. rewrite acceptedFiles_cons.
  destruct (isImageFile f) eqn:Himg; [|done].
  destruct (readFile f) as [dataUrl|] eqn:Hread; [|done].
  constructor; [by eapply readFile_isDataUrl|done].
Qed.

Lemma handleGenerate_unchanged remote schedule st w :
  let st' := fst (handleGenerate remote schedule st w) in
  characterImages st' = characterImages st
  /\ poseImage st' = poseImage st
  /\ customPrompt st' = customPrompt st.
Proof.
  cbv zeta. unfold handleGenerate.
  destruct (length (characterImages st) =? 0); [done|].
  destruct (poseImage st) as [pose|] eqn:Hpose; [|by rewrite <- Hpose].
  destruct (truthy pose); [|by rewrite <- Hpose].
  destruct (generateMangaPanel _ _ _ _ _ _) as [[[results|message]|] w'];
    by rewrite <- Hpose.
Qed.

Lemma handleGenerate_outputs remote schedule st w :
  outputsInv st -> outputsInv (fst (handleGenerate remote schedule st w)).
Proof.
  intros Hst. unfold handleGenerate.
  destruct (length (characterImages st) =? 0); [done|].
  destruct (poseImage st) as [pose|]; [|done].
  destruct (truthy pose); [|done].
  pose proof (returned_dispatchOrder remote schedule (characterImages st) pose
                (customPrompt st) w) as Hret.
  destruct (generateMangaPanel _ _ _ _ _ _) as [[[results|message]|] w'];
    cbn [fst finishGenerate] in *.
  - destruct (Hret results eq_refl) as [_ ->]. split; cbn.
    + apply dispatchOrder_length.
    + apply dispatchOrder_generated.
  - split; cbn; [lia|constructor].
  - split; cbn; [lia|constructor].
Qed.

Lemma step_invariants a st w :
  inputsInv st /\ outputsInv st ->
  inputsInv (fst (step a (st, w))) /\ outputsInv (fst (step a (st, w))).
Proof.
  intros [[Hchars Hpose] Hout].
  destruct a as [files|file|index| | |text|remote schedule]; cbn [step fst].
  - destruct files as [fs|]; [|done]. rewrite handleCharacterFiles_eq.
    split; [split|done]; cbn; [|done].
    apply Forall_app. split; [done|apply acceptedFiles_isDataUrl].
  - unfold handlePoseFile. destruct file as [f|]; [|done].
    destruct (startsWith "image/" (type f)) eqn:Himg; [|done].
    destruct (readFile f) as [dataUrl|] eqn:Hread; [|done].
    split; [split|done]; cbn; [done|].
    intros p [= <-]. by eapply readFile_isDataUrl.
  - split; [split|done]; cbn; [|done].
    rewrite filterIndexNe_spec by lia. rewrite Nat.sub_0_r.
    apply Forall_app. split; [by apply Forall_take|by apply Forall_drop].
  - split; [split|done]; cbn; [constructor|done].
  - split; [split|done]; cbn; [done|discriminate].
  - done.
  - destruct (handleGenerate_unchanged remote schedule st w) as (Hc & Hp & _).
    split; [split|].
    + by rewrite Hc.
    + by rewrite Hp.
    + by apply handleGenerate_outputs.
Qed.

Lemma fold_invariants actions : forall sw,
  inputsInv (fst sw) /\ outputsInv (fst sw) ->
  inputsInv (fst (fold_left (fun sw a => step a sw) actions sw))
  /\ outputsInv (fst (fold_left (fun sw a => step a sw) actions sw)).
Proof.
  induction actions as [|a actions IH]; intros [st w] Hst; [done|].
  cbn [fold_left]. apply IH. by apply step_invariants.
Qed.

(** X14.  In every state reached through the handlers, every character
    sheet and the pose reference are data URLs (they start with [data:],
    whatever media type the reader chose), and the displayed outcome holds
    at most ten images, each a png data URL with a non-empty payload. *)
Theorem session_invariants actions :
  inputsInv (fst (run actions)) /\ outputsInv (fst (run actions)).
Proof.
  apply fold_invariants. cbn [fst]. split; split.
  - constructor.
  - discriminate.
  - cbn. lia.
  - constructor.
Qed.

(** *** The generate button and the handler *)

Lemma disabled_false st :
  generateDisabled st = false ->
  isGenerating st = false /\ characterImages st <> []
  /\ exists pose, poseImage st = Some pose /\ truthy pose = true.
Proof.
  unfold generateDisabled. intros H.
  apply orb_false_elim in H as [H Hpose].
  apply orb_false_elim in H as [Hgen Hlen].
  split; [done|]. split.
  - intros Hnil. by rewrite Hnil in Hlen.
  - destruct (poseImage st) as [pose|]; [|done]. exists pose.
    split; [done|]. by apply negb_false_iff.
Qed.

(** X15.  The button is disabled exactly where the handler would refuse: in a
    state where the button is enabled, [handleGenerate] passes its checks
    and issues the batch; in an idle state where the button is disabled,
    [handleGenerate] would only put a validation message in the error slot
    and call nothing. *)
Theorem generate_button_guards remote schedule st w :
  (generateDisabled st = false ->
     exists pose,
       poseImage st = Some pose
       /\ handleGenerate remote schedule st w
          = (finishGenerate (beginGenerate st)
               (fst (generateMangaPanel remote schedule (characterImages st)
                                        pose (customPrompt st) w)),
             snd (generateMangaPanel remote schedule (characterImages st)
                                     pose (customPrompt st) w))
       /\ calls (snd (handleGenerate remote schedule st w))
          = calls w ++ replicate 10 (buildRequest (characterImages st) pose
                                                  (customPrompt st)))
  /\ (isGenerating st = false -> generateDisabled st = true ->
        calls (snd (handleGenerate remote schedule st w)) = calls w
        /\ exists msg,
             fst (handleGenerate remote schedule st w) = setError (Some msg) st).
Proof.
  split.
  - intros Hen. apply disabled_false in Hen as (_ & Hchars & pose & Hpose & Ht).
    exists pose. split; [done|].
    rewrite (handleGenerate_passed remote schedule st w pose Hchars Hpose Ht).
    split; [done|]. cbn [snd]. apply generateMangaPanel_calls.
  - intros Hidle Hdis. unfold generateDisabled in Hdis. rewrite Hidle in Hdis.
    cbn [orb] in Hdis. unfold handleGenerate.
    destruct (length (characterImages st) =? 0); [split; [done|by eexists]|].
    cbn [orb] in Hdis. apply negb_true_iff in Hdis.
    destruct (poseImage st) as [pose|]; [|split; [done|by eexists]].
    rewrite Hdis. split; [done|by eexists].
Qed.

Lemma generate_button_guards_witness :
  generateDisabled (fst (run uploaded)) = false
  /\ length (calls (snd (handleGenerate allFail reverseSchedule
                           (fst (run uploaded)) (snd (run uploaded))))) = 10
  /\ isGenerating initialState = false /\ generateDisabled initialState = true
  /\ calls (snd (handleGenerate allFail reverseSchedule initialState emptyWorld))
     = calls emptyWorld.
Proof.
  split; [reflexivity|]. split.
  { destruct (proj1 (generate_button_guards allFail reverseSchedule
                       (fst (run uploaded)) (snd (run uploaded))) eq_refl)
      as (pose & _ & _ & Hcalls).
    rewrite Hcalls. reflexivity. }
  split; [reflexivity|]. split; [reflexivity|].
  exact (proj1 (proj2 (generate_button_guards allFail reverseSchedule
                         initialState emptyWorld) eq_refl eq_refl)).
Defined.

(** X16.  A generation in which every call settles and at least one succeeds
    shows the successful images in dispatch order, leaves the error slot
    empty, ends the busy state, and shows neither placeholder; the inputs
    are as before. *)
Theorem successful_generation remote schedule st w pose :
  characterImages st <> [] -> poseImage st = Some pose -> truthy pose = true ->
  all_settle schedule ->
  dispatchOrder remote (buildRequest (characterImages st) pose (customPrompt st))
                (length (calls w)) <> [] ->
  let st' := fst (handleGenerate remote schedule st w) in
  generatedImages st'
  = dispatchOrder remote (buildRequest (characterImages st) pose (customPrompt st))
                  (length (calls w))
  /\ error st' = None /\ isGenerating st' = false
  /\ showSpinner st' = false /\ showPlaceholder st' = false
  /\ characterImages st' = characterImages st /\ poseImage st' = poseImage st.
Proof.
  intros Hchars Hpose Ht Hall Hne st'. subst st'.
  rewrite (handleGenerate_passed remote schedule st w pose Hchars Hpose Ht).
  destruct (generateMangaPanel_settled remote schedule (characterImages st) pose
              (customPrompt st) w Hall) as (w2 & _ & ->).
  destruct (dispatchOrder _ _ _) as [|img rest]; [done|].
  cbn [fst finishGenerate]. unfold showSpinner, showPlaceholder. cbn.
  by repeat split.
Qed.

Lemma successful_generation_witness :
  all_settle reverseSchedule
  /\ length (generatedImages
               (fst (handleGenerate allSucceed reverseSchedule
                       (fst (run uploaded)) (snd (run uploaded))))) = 10
  /\ error (fst (handleGenerate allSucceed reverseSchedule
                   (fst (run uploaded)) (snd (run uploaded)))) = None.
Proof.
  split; [exact all_settle_reverse|].
  destruct (successful_generation allSucceed reverseSchedule
              (fst (run uploaded)) (snd (run uploaded))
              "data:image/png;base64,iVBORw0KGgo="
              ltac:(discriminate) eq_refl eq_refl all_settle_reverse
              ltac:(vm_compute; discriminate))
    as (Himgs & Herr & _).
  split; [|exact Herr]. rewrite Himgs. reflexivity.
Defined.

(** X17.  When one of the ten calls never settles, the handler never resumes:
    the state stays as it was set before the batch, so the application
    stays busy, the spinner stays on and the button stays disabled, while
    all ten requests have been issued. *)
Theorem stalled_generation remote schedule st w pose i :
  characterImages st <> [] -> poseImage st = Some pose -> truthy pose = true ->
  i < numberOfVariations -> i ∉ schedule ->
  let st' := fst (handleGenerate remote schedule st w) in
  st' = beginGenerate st
  /\ isGenerating st' = true /\ showSpinner st' = true
  /\ generateDisabled st' = true
  /\ calls (snd (handleGenerate remote schedule st w))
     = calls w ++ replicate 10 (buildRequest (characterImages st) pose
                                             (customPrompt st)).
Proof.
  intros Hchars Hpose Ht Hi Hnot st'. subst st'.
  rewrite (handleGenerate_passed remote schedule st w pose Hchars Hpose Ht).
  cbn [fst snd].
  rewrite (stalled_call_blocks remote schedule _ _ _ w i Hi Hnot).
  cbn [finishGenerate]. repeat split; try reflexivity.
  apply generateMangaPanel_calls.
Qed.

Lemma stalled_generation_witness :
  3 < numberOfVariations /\ (3 ∉ stalledSchedule)
  /\ isGenerating (fst (handleGenerate allSucceed stalledSchedule
                          (fst (run uploaded)) (snd (run uploaded)))) = true.
Proof.
  assert (Hnot : 3 ∉ stalledSchedule).
  { apply (bool_decide_unpack _). by vm_compute. }
  split; [unfold numberOfVariations; lia|]. split; [exact Hnot|].
  exact (proj1 (proj2 (stalled_generation allSucceed stalledSchedule
                         (fst (run uploaded)) (snd (run uploaded))
                         "data:image/png;base64,iVBORw0KGgo=" 3
                         ltac:(discriminate) eq_refl eq_refl
                         ltac:(unfold numberOfVariations; lia) Hnot))).
Defined.

(** *** Downloads *)

Lemma string_length_append s t :
  String.length (s ++ t) = String.length s + String.length t.
Proof. induction s as [|a s IH]; simpl; [done|]. by rewrite IH. Qed.

Lemma string_append_inj_r t : forall s1 s2 : string,
  (s1 ++ t = s2 ++ t)%string -> s1 = s2.
Proof.
  induction s1 as [|a s1 IH]; intros [|b s2] H; simpl in H.
  - done.
  - apply (f_equal String.length) in H. simpl in H.
    rewrite string_length_append in H. lia.
  - apply (f_equal String.length) in H. simpl in H.
    rewrite string_length_append in H. lia.
  - injection H as -> H. f_equal. by apply IH.
Qed.

Lemma string_of_nat_inj n m : string_of_nat n = string_of_nat m -> n = m.
Proof.
  unfold string_of_nat. intros H.
  apply DecimalNat.Unsigned.to_uint_inj.
  apply (f_equal NilEmpty.uint_of_string) in H.
  rewrite !NilEmpty.usu in H. by injection H.
Qed.

Lemma panelName_inj n m : panelName n = panelName m -> n = m.
Proof.
  unfold panelName. intros H. simpl in H. injection H as H.
  by apply string_of_nat_inj, (string_append_inj_r ".png").
Qed.

Lemma remove_fresh_node doc a :
  knownNodes doc ->
  List.filter (fun m => negb (nodeId m =? nextId doc))
              (body doc ++ [{| nodeId := nextId doc; anchor := a |}])
  = body doc.
Proof.
  unfold knownNodes. intros Hknown. rewrite List.filter_app. cbn.
  rewrite Nat.eqb_refl. cbn. rewrite app_nil_r.
  induction Hknown as [|m ms Hm Hms IH]; [done|]. cbn.
  destruct (nodeId m =? nextId doc) eqn:E; [apply Nat.eqb_eq in E; lia|].
  cbn. by rewrite IH.
Qed.

Lemma handleDownload_eq dataUrl index doc :
  knownNodes doc ->
  handleDownload dataUrl index doc
  = {| nextId := S (nextId doc); body := body doc;
       clicked := clicked doc
                  ++ [{| href := dataUrl; download := panelName (index + 1) |}] |}.
Proof.
  intros Hknown. unfold handleDownload, createElement, removeChild, click, appendChild.
  cbn [nodeId body clicked nextId anchor]. f_equal.
  by apply remove_fresh_node.
Qed.

Lemma downloadFrom_eq images : forall idx doc,
  knownNodes doc ->
  body (downloadFrom idx images doc) = body doc
  /\ clicked (downloadFrom idx images doc)
     = clicked doc
       ++ zip_with (fun img n => {| href := img; download := panelName n |})
                   images (seq (S idx) (length images)).
Proof.
  induction images as [|img images IH]; intros idx doc Hknown.
  - cbn. by rewrite app_nil_r.
  - cbn [downloadFrom]. rewrite handleDownload_eq by done.
    edestruct IH as [Hb Hc]; [|rewrite Hb, Hc].
    + unfold knownNodes in *. cbn. eapply Forall_impl; [exact Hknown|].
      cbn. intros m Hm. lia.
    + cbn. split; [done|]. rewrite <- app_assoc. cbn.
      by replace (idx + 1) with (S idx) by lia.
Qed.

(** X18.  Pressing the download button of every tile, first tile first, saves
    the displayed images under the names [manga-panel-1.png],
    [manga-panel-2.png], ... in the order of the tiles; the names are
    pairwise different, and the page is left without the temporary
    links. *)
Theorem downloads_named_by_position st doc :
  knownNodes doc ->
  let n := length (generatedImages st) in
  let doc' := downloadAll st doc in
  body doc' = body doc
  /\ clicked doc'
     = clicked doc
       ++ zip_with (fun img k => {| href := img; download := panelName k |})
                   (generatedImages st) (seq 1 n)
  /\ NoDup (map panelName (seq 1 n)).
Proof.
  intros Hknown n doc'. subst n doc'. unfold downloadAll.
  destruct (downloadFrom_eq (generatedImages st) 0 doc Hknown) as [Hb Hc].
  split; [done|]. split; [done|].
  apply NoDup_fmap_2; [|apply NoDup_seq].
  intros a b. apply panelName_inj.
Qed.

Lemma downloads_named_by_position_witness :
  knownNodes emptyDocument
  /\ map download (clicked (downloadAll (fst (run generatedOnce)) emptyDocument))
     = map panelName (seq 1 10).
Proof.
  split; [constructor|].
  rewrite (proj1 (proj2 (downloads_named_by_position
                           (fst (run generatedOnce)) emptyDocument
                           ltac:(constructor)))).
  reflexivity.
Defined.

End AppMore.

(** ** Further properties of the drawing surface *)

Module CanvasMore.
Import DrawingCanvas CanvasSpec CanvasFacts MoreCanvasSpec.
Local Open Scope Qc_scope.

(** *** Input paths *)

(** X19.  A touch has the same effect as the mouse event at its place,
    that is the mouse event whose offset in the canvas is the client
    position of the first touch minus the corner of the canvas, on pointer
    down and on pointer move; further touches of the same event are
    ignored.  This holds for the calls made on binary64 numbers and for the
    state of the surface. *)
Theorem touch_mouse_parity :
  (forall w_b h_b rect touch rest,
      Binary64.handleTouchStart w_b h_b (Some rect)
        {| Binary64.touches := touch :: rest |}
      = Binary64.handleMouseDown w_b h_b (Some rect)
          (Binary64Spec.mouseOfTouch rect touch)
      /\ Binary64.handleTouchMove w_b h_b (Some rect)
           {| Binary64.touches := touch :: rest |}
         = Binary64.handleMouseMove w_b h_b (Some rect)
             (Binary64Spec.mouseOfTouch rect touch))
  /\ (forall st canvas touch rest,
        canvasRef st = Some canvas ->
        handleTouchStart {| touches := touch :: rest |} st
        = handleMouseDown (mouseOfTouch (boundingClientRect canvas) touch) st
        /\ handleTouchMove {| touches := touch :: rest |} st
           = handleMouseMove (mouseOfTouch (boundingClientRect canvas) touch) st).
Proof.
  split.
  - intros w_b h_b rect touch rest. by split.
  - intros st canvas touch rest Hc.
    unfold handleTouchStart, handleTouchMove, handleMouseDown, handleMouseMove.
    rewrite Hc. by split.
Qed.

Lemma touch_mouse_parity_witness :
  let st := mount (num 512) (num 512) sampleCanvas in
  canvasRef st <> None
  /\ handleTouchStart {| touches := [sampleTouch] |} st
     = handleMouseDown {| offsetX := num 138 - num 10; offsetY := num 84 - num 20 |} st.
Proof.
  cbv zeta. split; [discriminate|].
  exact (proj1 (proj2 touch_mouse_parity
                  (mount (num 512) (num 512) sampleCanvas) _ sampleTouch []
                  eq_refl)).
Defined.




(** X21.  Moving the pointer while no stroke is active changes nothing, however
    many move events arrive. *)
Theorem hover_draws_nothing st (moves : list MouseEvent) :
  isDrawing st = false ->
  fold_left (fun s e => handleMouseMove e s) moves st = st.
Proof.
  intros Hd. induction moves as [|e moves IH]; [done|]. cbn [fold_left].
  replace (handleMouseMove e st) with st; [exact IH|].
  unfold handleMouseMove, draw. rewrite Hd. by destruct (canvasRef st).
Qed.

Lemma hover_draws_nothing_witness :
  let st := mount (num 512) (num 512) sampleCanvas in
  isDrawing st = false
  /\ fold_left (fun s e => handleMouseMove e s)
               [{| offsetX := num 1; offsetY := num 2 |};
                {| offsetX := num 3; offsetY := num 4 |}] st = st.
Proof.
  cbv zeta. split; [reflexivity|].
  exact (hover_draws_nothing (mount (num 512) (num 512) sampleCanvas) _ eq_refl).
Defined.

(** *** Invariants of the surface *)

Lemma apply_ops_app os1 os2 st :
  apply_ops (os1 ++ os2) st = apply_ops os2 (apply_ops os1 st).
Proof. unfold apply_ops. apply fold_left_app. Qed.

Lemma apply_ops_inv (P : State -> Prop) :
  (forall o st, P st -> P (apply_op o st)) ->
  forall os st, P st -> P (apply_ops os st).
Proof.
  intros Hstep os. induction os as [|o os IH]; intros st Hst; [done|].
  unfold apply_ops in *. cbn [fold_left]. apply IH. by apply Hstep.
Qed.

Lemma initialize_inv st :
  contextOwned st -> surfaceInv (initialize st) /\ contextOwned (initialize st).
Proof.
  unfold contextOwned, surfaceInv, initialize. intros Hown.
  destruct (canvasRef st) as [canvas|] eqn:Hc.
  - destruct (supports2d canvas) eqn:H2d; cbn.
    + repeat split; try done; by eexists.
    + destruct (ctxRef st) as [ctx|]; [|done].
      destruct Hown as (canvas' & [= <-] & Hs). congruence.
  - destruct (ctxRef st); [|by rewrite Hc].
    by destruct Hown as (canvas' & [=] & _).
Qed.

Lemma styled_emit new ctx : styled ctx -> styled (emit new ctx).
Proof. by unfold styled. Qed.

Local Ltac surface_step :=
  match goal with
  | Hinv : surfaceInv ?st, Hown : contextOwned ?st, Hx : ctxRef ?st = Some _ |- _ =>
      unfold surfaceInv, contextOwned in *; rewrite Hx in *; cbn;
      destruct Hinv as (Hcanvas & Hstyle & rest & Hops);
      split; [split; [exact Hcanvas|]|exact Hown];
      split; [by apply styled_emit|];
      eexists; rewrite Hops; reflexivity
  end.

Lemma apply_op_inv o st :
  surfaceInv st /\ contextOwned st ->
  surfaceInv (apply_op o st) /\ contextOwned (apply_op o st).
Proof.
  intros [Hinv Hown]. destruct o as [w h|x y|x y| |]; cbn [apply_op].
  - unfold rerender.
    destruct (Qc_eq_dec w (width st)); [destruct (Qc_eq_dec h (height st))|];
      try done; by apply initialize_inv.
  - unfold startDrawing.
    destruct (ctxRef st) as [ctx|] eqn:Hx; [|by split]. by surface_step.
  - unfold draw. destruct (negb (isDrawing st)); [by split|].
    destruct (ctxRef st) as [ctx|] eqn:Hx; [|by split]. by surface_step.
  - unfold stopDrawing.
    destruct (ctxRef st) as [ctx|] eqn:Hx; [|by split]. by surface_step.
  - unfold clearCanvas.
    destruct (canvasRef st) as [canvas|] eqn:Hc; [|by split].
    destruct (ctxRef st) as [ctx|] eqn:Hx; [|by split].
    unfold surfaceInv, contextOwned in *. rewrite Hx, Hc in Hinv, Hown.
    cbn. rewrite Hc.
    destruct Hinv as (Hcanvas & Hstyle & rest & Hops).
    split; [split; [exact Hcanvas|]|exact Hown].
    split; [|eexists; rewrite Hops; reflexivity].
    unfold styled in *. cbn. by destruct Hstyle as (? & ? & ? & ? & ?).
Qed.

Lemma reflectSize_whole default x n :
  wholeSize x n -> reflectSize default x = n.
Proof.
  intros [Hn ->]. unfold reflectSize, toUnsignedLong, truncate, num.
  cbn [this Q2Qc]. rewrite Qred_identity by apply Z.gcd_1_r.
  cbn [Qnum Qden inject_Z]. rewrite Z.quot_1_r.
  rewrite Z.mod_small by lia.
  destruct (n >? 2147483647)%Z eqn:E; [|done].
  apply Z.gtb_lt in E. lia.
Qed.

Lemma surface_all w h canvas os :
  surfaceInv (apply_ops os (mount w h canvas))
  /\ contextOwned (apply_ops os (mount w h canvas)).
Proof.
  apply (apply_ops_inv (fun st => surfaceInv st /\ contextOwned st)).
  - apply apply_op_inv.
  - unfold mount. by apply initialize_inv.
Qed.

(** X22.  Whatever is done to a mounted surface, the buffer of the canvas has
    the size that the assignment of the current props gives it (the prop
    truncated and reduced to an [unsigned long], or the default 300 by 150
    when that is out of range), the context keeps the stroke settings
    installed by the effect (round caps and joins, white, width 8, black
    fill), and the first thing on the bitmap is the background rectangle
    of the size of the props.  When the props are whole numbers between 0
    and 2147483647 the buffer has exactly their size, so this rectangle
    covers the whole buffer. *)
Theorem surface_invariant w h canvas os :
  let st := apply_ops os (mount w h canvas) in
  surfaceInv st
  /\ (forall c n m,
        canvasRef st = Some c ->
        wholeSize (width st) n -> wholeSize (height st) m ->
        canvas_width c = n /\ canvas_height c = m).
Proof.
  cbv zeta. destruct (surface_all w h canvas os) as [Hinv _].
  split; [exact Hinv|].
  intros c n m Hc Hn Hm. destruct Hinv as [Hsize _]. rewrite Hc in Hsize.
  destruct Hsize as [-> ->].
  split; by apply reflectSize_whole.
Qed.

Lemma surface_invariant_witness :
  let st := apply_ops strokeThenResize (mount (num 512) (num 512) sampleCanvas) in
  wholeSize (width st) 256 /\ wholeSize (height st) 256
  /\ option_map canvas_width (canvasRef st) = Some 256%Z
  /\ option_map canvas_width
       (canvasRef (mount halfPixel (num (-5)) sampleCanvas)) = Some 100%Z
  /\ option_map canvas_height
       (canvasRef (mount halfPixel (num (-5)) sampleCanvas)) = Some 150%Z.
Proof.
  cbv zeta.
  assert (Hw : wholeSize
                 (width (apply_ops strokeThenResize
                           (mount (num 512) (num 512) sampleCanvas))) 256).
  { split; [lia|reflexivity]. }
  assert (Hh : wholeSize
                 (height (apply_ops strokeThenResize
                            (mount (num 512) (num 512) sampleCanvas))) 256).
  { split; [lia|reflexivity]. }
  split; [exact Hw|]. split; [exact Hh|]. split.
  - destruct (canvasRef (apply_ops strokeThenResize
                           (mount (num 512) (num 512) sampleCanvas)))
      as [c|] eqn:Hc; [|by vm_compute in Hc].
    cbn [option_map]. f_equal.
    exact (proj1 (proj2 (surface_invariant (num 512) (num 512) sampleCanvas
                           strokeThenResize) c 256%Z 256%Z Hc Hw Hh)).
  - split; reflexivity.
Defined.

(** X23.  On a canvas without 2D support nothing is ever drawn: the context
    stays absent, no stroke becomes active and [isEmpty()] stays true. *)
Theorem blind_canvas_stays_empty w h canvas os :
  supports2d canvas = false ->
  let st := apply_ops os (mount w h canvas) in
  ctxRef st = None /\ isDrawing st = false /\ isEmpty st = true.
Proof.
  intros H2d. cbv zeta.
  apply (apply_ops_inv
           (fun st => (exists c, canvasRef st = Some c /\ supports2d c = false)
                      /\ ctxRef st = None /\ isDrawing st = false
                      /\ isEmpty st = true)).
  - intros o st ((c & Hc & Hs) & Hx & Hd & He).
    destruct o as [w' h'|x y|x y| |]; cbn [apply_op].
    + assert (Hi : forall st0,
                 canvasRef st0 = Some c -> ctxRef st0 = None ->
                 isDrawing st0 = false -> isEmpty st0 = true ->
                 (exists c', canvasRef (initialize st0) = Some c'
                             /\ supports2d c' = false)
                 /\ ctxRef (initialize st0) = None
                 /\ isDrawing (initialize st0) = false
                 /\ isEmpty (initialize st0) = true).
      { intros st0 Hc0 Hx0 Hd0 He0. unfold initialize. rewrite Hc0, Hs. cbn.
        repeat split; try done. by eexists. }
      unfold rerender.
      destruct (Qc_eq_dec w' (width st)); [destruct (Qc_eq_dec h' (height st))|].
      * repeat split; try done. by exists c.
      * by apply Hi.
      * by apply Hi.
    + unfold startDrawing. rewrite Hx. repeat split; try done. by exists c.
    + unfold draw. rewrite Hd. cbn. repeat split; try done. by exists c.
    + unfold stopDrawing. rewrite Hx. repeat split; try done. by exists c.
    + unfold clearCanvas. rewrite Hc, Hx. repeat split; try done. by exists c.
  - unfold mount, initialize. cbn. rewrite H2d. cbn.
    repeat split; try done. by eexists.
Qed.

Lemma blind_canvas_stays_empty_witness :
  supports2d blindCanvas = false
  /\ isEmpty (apply_ops strokeThenResize (mount (num 512) (num 512) blindCanvas))
     = true.
Proof.
  split; [reflexivity|].
  exact (proj2 (proj2 (blind_canvas_stays_empty (num 512) (num 512) blindCanvas
                         strokeThenResize eq_refl))).
Defined.

(** *** Strokes *)

Lemma extend_stroke ps : forall st ctx,
  ctxRef st = Some ctx -> isDrawing st = true ->
  let st' := apply_ops (map (fun p => ExtendStroke (fst p) (snd p)) ps) st in
  option_map ops (ctxRef st')
  = Some (ops ctx ++ flat_map (fun p => [LineTo (fst p) (snd p); Stroke]) ps)
  /\ isDrawing st' = true /\ hasContent st' = hasContent st.
Proof.
  induction ps as [|p ps IH]; intros st ctx Hx Hd; cbv zeta.
  - cbn. rewrite Hx. cbn. by rewrite app_nil_r.
  - change (apply_ops (map (fun q => ExtendStroke (fst q) (snd q)) (p :: ps)) st)
      with (apply_ops (map (fun q => ExtendStroke (fst q) (snd q)) ps)
              (draw (fst p) (snd p) st)).
    assert (Hstep : draw (fst p) (snd p) st
                    = setCtx (emit [LineTo (fst p) (snd p); Stroke] ctx) st).
    { unfold draw. by rewrite Hd, Hx. }
    rewrite Hstep.
    destruct (IH (setCtx (emit [LineTo (fst p) (snd p); Stroke] ctx) st) _
                 eq_refl Hd) as (Hops & Hd' & Hc').
    rewrite Hops, Hd', Hc'. cbn [flat_map emit ops hasContent setCtx].
    by rewrite <- app_assoc.
Qed.

(** X24.  A complete stroke (pointer down, moves, pointer up) on a surface with
    a context appends to the bitmap exactly: begin path, move to the first
    point, one stroked line segment per further point in order, close
    path.  Afterwards no stroke is active and the surface counts as drawn
    on. *)
Theorem stroke_commands st ctx p0 ps :
  ctxRef st = Some ctx ->
  let st' := apply_ops (strokeThrough p0 ps) st in
  option_map ops (ctxRef st') = Some (ops ctx ++ strokeCommands p0 ps)
  /\ isDrawing st' = false /\ isEmpty st' = false.
Proof.
  intros Hx. cbv zeta. unfold strokeThrough, strokeCommands.
  change (BeginStroke (fst p0) (snd p0)
          :: map (fun p => ExtendStroke (fst p) (snd p)) ps ++ [EndStroke])
    with ([BeginStroke (fst p0) (snd p0)]
          ++ map (fun p => ExtendStroke (fst p) (snd p)) ps ++ [EndStroke]).
  rewrite !apply_ops_app.
  set (st1 := apply_ops [BeginStroke (fst p0) (snd p0)] st).
  assert (H1 : ctxRef st1 = Some (emit [BeginPath; MoveTo (fst p0) (snd p0)] ctx)
               /\ isDrawing st1 = true /\ hasContent st1 = true).
  { subst st1. cbn. unfold startDrawing. by rewrite Hx. }
  destruct H1 as (Hx1 & Hd1 & Hc1).
  destruct (extend_stroke ps st1 _ Hx1 Hd1) as (Hops & Hd2 & Hc2).
  set (st2 := apply_ops (map (fun p => ExtendStroke (fst p) (snd p)) ps) st1) in *.
  cbn [apply_ops fold_left apply_op]. unfold stopDrawing, isEmpty.
  destruct (ctxRef st2) as [ctx2|] eqn:Hx2; [|done].
  cbn in Hops |- *. injection Hops as Hops.
  rewrite Hops, Hc2, Hc1. by rewrite <- !app_assoc.
Qed.

Lemma stroke_commands_witness :
  let st := mount (num 512) (num 512) sampleCanvas in
  ctxRef st <> None
  /\ option_map ops
       (ctxRef (apply_ops (strokeThrough (num 1, num 2) [(num 3, num 4)]) st))
     = Some [FillRect (num 0) (num 0) (num 512) (num 512);
             BeginPath; MoveTo (num 1) (num 2);
             LineTo (num 3) (num 4); Stroke; ClosePath].
Proof.
  cbv zeta. split; [discriminate|].
  exact (proj1 (stroke_commands (mount (num 512) (num 512) sampleCanvas) _
                  (num 1, num 2) [(num 3, num 4)] eq_refl)).
Defined.

(** X25.  [clearCanvas] does not end an active stroke: a move that follows a
    clear in the middle of a stroke still draws a line on the fresh
    background, while [isEmpty()] answers [true]. *)
Theorem clear_during_stroke st canvas ctx x y :
  canvasRef st = Some canvas -> ctxRef st = Some ctx -> isDrawing st = true ->
  let st' := draw x y (clearCanvas st) in
  option_map ops (ctxRef st')
  = Some (ops ctx ++ [FillRect (num 0) (num 0) (width st) (height st);
                      LineTo x y; Stroke])
  /\ isDrawing st' = true /\ isEmpty st' = true.
Proof.
  intros Hc Hx Hd. cbv zeta. unfold clearCanvas. rewrite Hc, Hx.
  unfold draw. cbn. rewrite Hd. cbn. by rewrite <- app_assoc.
Qed.

Lemma clear_during_stroke_witness :
  let st := startDrawing (num 5) (num 5) (mount (num 512) (num 512) sampleCanvas) in
  isDrawing st = true
  /\ isEmpty (draw (num 9) (num 9) (clearCanvas st)) = true.
Proof.
  cbv zeta. split; [reflexivity|].
  exact (proj2 (proj2 (clear_during_stroke
                         (startDrawing (num 5) (num 5)
                            (mount (num 512) (num 512) sampleCanvas))
                         _ _ (num 9) (num 9) eq_refl eq_refl eq_refl))).
Defined.

(** *** The emptiness flag over whole sessions *)

Lemma sinceLastClear_none os :
  existsb isClear os = false -> sinceLastClear os = os.
Proof.
  destruct os as [|o os]; [done|]. cbn [existsb sinceLastClear].
  intros H. apply orb_false_elim in H as [Ho Hos]. by rewrite Hos, Ho.
Qed.

Lemma apply_ops_ready os : forall st, ready st -> ready (apply_ops os st).
Proof. apply apply_ops_inv. intros o st. apply apply_op_ready. Qed.

Lemma isEmpty_general os : forall st,
  ready st ->
  isEmpty (apply_ops os st)
  = if existsb isClear os
    then negb (existsb isBeginStroke (sinceLastClear os))
    else isEmpty st && negb (existsb isBeginStroke os).
Proof.
  induction os as [|o os IH]; intros st Hr.
  - cbn. by rewrite andb_true_r.
  - change (apply_ops (o :: os) st) with (apply_ops os (apply_op o st)).
    rewrite IH by (by apply apply_op_ready).
    cbn [existsb sinceLastClear].
    destruct (existsb isClear os) eqn:Hcl.
    + by rewrite orb_true_r.
    + rewrite orb_false_r. unfold isEmpty at 1.
      rewrite apply_op_hasContent by done.
      destruct (isClear o) eqn:Ho; [done|].
      destruct (isBeginStroke o); [|done].
      cbn. by rewrite andb_false_r.
Qed.

(** X26.  On a canvas with 2D support, after any sequence of operations
    [isEmpty()] is true exactly when no stroke was begun since the last
    [Clear] (or since mounting, when there was no [Clear]).  Running the
    initialisation again does not count: it leaves the flag as it is. *)
Theorem isEmpty_iff_no_stroke_since_clear w h canvas os :
  supports2d canvas = true ->
  isEmpty (apply_ops os (mount w h canvas))
  = negb (existsb isBeginStroke (sinceLastClear os)).
Proof.
  intros H2d. rewrite isEmpty_general by (by apply ready_mount).
  rewrite isEmpty_mount. cbn [andb].
  destruct (existsb isClear os) eqn:Hcl; [done|].
  by rewrite sinceLastClear_none.
Qed.

Lemma isEmpty_iff_no_stroke_since_clear_witness :
  supports2d sampleCanvas = true
  /\ isEmpty (apply_ops (strokeThenResize ++ [Clear; Initialize (num 64) (num 64)])
                        (mount (num 512) (num 512) sampleCanvas)) = true.
Proof.
  split; [reflexivity|].
  rewrite (isEmpty_iff_no_stroke_since_clear (num 512) (num 512) sampleCanvas
             _ eq_refl).
  reflexivity.
Defined.

End CanvasMore.
